(** * kmlib::AtomicBitVector (src/kmlib/kmbitvector.h)

    A shallow embedding of the atomic bit vector and the properties of its
    public interface.

    Modelling choices.
    - A word of [word_type] and a value of [size_type] are integers of [Z];
      every place where the C++ arithmetic truncates is written with
      [to_word], [to_size] or [to_unsigned].
    - [size_type] is [std::vector<word_type>::size_type], a 64-bit unsigned
      integer (LP64).
    - [data_array_] is the list of the stored words.  The wrapper
      [AtomicWrapper<word_type>] has the size of a word (the static_assert
      of the class) and is not represented by a type of its own.
    - One thread runs the operations.  The atomic primitives are functions
      on the stored word; [compare_exchange_weak] may still fail spuriously,
      which an explicit list of outcomes describes.
    - Indexing [data_array_] past its end is undefined behaviour in C++ and
      gives [OutOfBounds] here.  Allocation itself never fails. *)

From Stdlib Require Import ZArith List Bool Lia.
From stdpp Require Import base list.

Local Open Scope Z_scope.

Module kmlib.

(** ** Results of the operations *)

Inductive result (A : Type) : Type :=
| Ok (a : A)
| OutOfBounds
| Spinning.

Arguments Ok {A} a.
Arguments OutOfBounds {A}.
Arguments Spinning {A}.

#[global] Instance result_ret : MRet result := @Ok.

#[global] Instance result_bind : MBind result :=
  fun A B (k : A -> result B) (r : result A) =>
    match r with
    | Ok a => k a
    | OutOfBounds => OutOfBounds
    | Spinning => Spinning
    end.

(** ** Integer types *)

(** The unsigned integer types [std::atomic] offers [fetch_or] and
    [fetch_and] for.  [unsigned long], the default of the template, is
    [uint64_t] on LP64; the alias at the end of the header picks
    [uint64_t]. *)
Inductive WordType : Set := uint8_t | uint16_t | uint32_t | uint64_t.

Definition sizeof (T : WordType) : Z :=
  match T with
  | uint8_t => 1
  | uint16_t => 2
  | uint32_t => 4
  | uint64_t => 8
  end.

Definition size_type_bits : Z := 64.
Definition SIZE_MAX : Z := 2 ^ size_type_bits - 1.
Definition PTRDIFF_MAX : Z := 2 ^ (size_type_bits - 1) - 1.

(** Conversion to [size_type]. *)
Definition to_size (x : Z) : Z := x mod 2 ^ size_type_bits.

(** Conversion to [unsigned]. *)
Definition to_unsigned (x : Z) : Z := x mod 2 ^ 32.

(** ** The atomic primitives, as one thread sees them *)

(** Each returns what the C++ call returns together with the word stored
    afterwards. *)

Definition load (stored : Z) : Z := stored.

Definition fetch_or (stored mask : Z) : Z * Z := (stored, Z.lor stored mask).

Definition fetch_and (stored mask : Z) : Z * Z := (stored, Z.land stored mask).

(** [compare_exchange_weak expected desired]: result, word stored afterwards,
    and the new content of [expected], which receives the stored word when
    the exchange fails. *)
Definition compare_exchange_weak (spurious : bool)
  (stored expected desired : Z) : bool * Z * Z :=
  if negb spurious && (stored =? expected)
  then (true, desired, expected)
  else (false, stored, stored).

(** ** The class *)

Record AtomicBitVector : Type := {
  size_ : Z;
  data_array_ : list Z
}.

(** [data_array_[k]] *)
Definition word_at (a : list Z) (k : Z) : result Z :=
  match a !! Z.to_nat k with
  | Some w => Ok w
  | None => OutOfBounds
  end.

(** [data_array_[k].v.op(...)] for a read-modify-write [op] *)
Definition word_rmw (a : list Z) (k : Z) (op : Z -> Z * Z) : result (list Z) :=
  w ← word_at a k;
  Ok (<[Z.to_nat k := snd (op w)]> a).

Section AtomicBitVector.

Context (word_type : WordType).

Definition kBitsPerByte : Z := 8.

Definition kBitsPerWord : Z := to_unsigned (sizeof word_type * kBitsPerByte).

(** Conversion to [word_type]. *)
Definition to_word (x : Z) : Z := x mod 2 ^ kBitsPerWord.

(** [(size + kBitsPerWord - 1) / kBitsPerWord], in [size_type] *)
Definition word_count (size : Z) : Z :=
  to_size (to_size (size + kBitsPerWord) - 1) / kBitsPerWord.

(** [array_type(n)] and [array_type(n, 0)]: [n] wrappers holding [T()], 0 *)
Definition array_type (n : Z) : list Z := replicate (Z.to_nat n) 0.

(** [explicit AtomicBitVector(size_type size = 0)] *)
Definition AtomicBitVector_size (size : Z) : AtomicBitVector :=
  {| size_ := size; data_array_ := array_type (word_count size) |}.

(** [explicit AtomicBitVector(WordIterator first, WordIterator last)] for the
    range holding [words].  [last - first] is a [ptrdiff_t]; each wrapper is
    built from one element of the range by [AtomicWrapper(T a)]. *)
Definition AtomicBitVector_words (words : list Z) : AtomicBitVector :=
  {| size_ := to_size (Z.of_nat (length words) * kBitsPerWord);
     data_array_ := to_word <$> words |}.

(** [AtomicBitVector(AtomicBitVector &&rhs)]: the new vector and [rhs]
    afterwards.  A moved-from [std::vector] is empty. *)
Definition AtomicBitVector_move (rhs : AtomicBitVector)
  : AtomicBitVector * AtomicBitVector :=
  ({| size_ := size_ rhs; data_array_ := data_array_ rhs |},
   {| size_ := size_ rhs; data_array_ := [] |}).

(** [AtomicBitVector &operator=(AtomicBitVector &&rhs)]: [*this] and [rhs]
    afterwards *)
Definition move_assign (this rhs : AtomicBitVector)
  : AtomicBitVector * AtomicBitVector :=
  let this1 := {| size_ := size_ rhs; data_array_ := data_array_ this |} in
  let this2 := {| size_ := size_ this1; data_array_ := data_array_ rhs |} in
  (this2, {| size_ := size_ rhs; data_array_ := [] |}).

Definition size (this : AtomicBitVector) : Z := size_ this.

Definition set (this : AtomicBitVector) (i : Z) : result AtomicBitVector :=
  let mask := to_word (Z.shiftl 1 (i mod kBitsPerWord)) in
  a ← word_rmw (data_array_ this) (i / kBitsPerWord) (fun w => fetch_or w mask);
  Ok {| size_ := size_ this; data_array_ := a |}.

Definition unset (this : AtomicBitVector) (i : Z) : result AtomicBitVector :=
  let mask := to_word (Z.lnot (to_word (Z.shiftl 1 (i mod kBitsPerWord)))) in
  a ← word_rmw (data_array_ this) (i / kBitsPerWord) (fun w => fetch_and w mask);
  Ok {| size_ := size_ this; data_array_ := a |}.

(** [at(i)], written [at_] as [at] is a keyword here.  [!!x] on an integer is
    [x != 0]. *)
Definition at_ (this : AtomicBitVector) (i : Z) : result bool :=
  w ← word_at (data_array_ this) (i / kBitsPerWord);
  Ok (negb (Z.land (load w) (to_word (Z.shiftl 1 (i mod kBitsPerWord))) =? 0)).

(** The loop of [try_lock] on the word [p] points to.  [cas] tells, for each
    call of [compare_exchange_weak] in turn, whether it fails spuriously;
    the loop is [Spinning] when [cas] is used up before the loop is left. *)
Fixpoint try_lock_loop (cas : list bool) (stored old_value i : Z)
  : result (bool * Z) :=
  if Z.land (Z.shiftr old_value (i mod kBitsPerWord)) 1 =? 0 then
    match cas with
    | [] => Spinning
    | spurious :: cas' =>
        let new_value :=
          Z.lor old_value (to_word (Z.shiftl 1 (i mod kBitsPerWord))) in
        match compare_exchange_weak spurious stored old_value new_value with
        | (true, stored', _) => Ok (true, stored')
        | (false, stored', old_value') => try_lock_loop cas' stored' old_value' i
        end
    end
  else Ok (false, stored).

Definition try_lock (cas : list bool) (this : AtomicBitVector) (i : Z)
  : result (bool * AtomicBitVector) :=
  let p := i / kBitsPerWord in
  w ← word_at (data_array_ this) p;
  r ← try_lock_loop cas w (load w) i;
  Ok (fst r, {| size_ := size_ this;
                data_array_ := <[Z.to_nat p := snd r]> (data_array_ this) |}).

Definition unlock (this : AtomicBitVector) (i : Z) : result AtomicBitVector :=
  unset this i.

Definition reset (this : AtomicBitVector) (size : Z) : AtomicBitVector :=
  let this1 := {| size_ := size_ this; data_array_ := array_type 0 |} in
  let this2 := {| size_ := size; data_array_ := data_array_ this1 |} in
  {| size_ := size_ this2; data_array_ := array_type (word_count size) |}.

(** [std::swap(x, y)] *)
Definition std_swap {A : Type} (x y : A) : A * A := (y, x).

(** [swap(rhs)]: [*this] and [rhs] afterwards *)
Definition swap (this rhs : AtomicBitVector) : AtomicBitVector * AtomicBitVector :=
  let '(s1, s2) := std_swap (size_ this) (size_ rhs) in
  let '(d1, d2) := std_swap (data_array_ this) (data_array_ rhs) in
  ({| size_ := s1; data_array_ := d1 |}, {| size_ := s2; data_array_ := d2 |}).

(** ** The invariant of the class

    The storage holds ceil(size_ / kBitsPerWord) words. *)
Definition ceil_div (n d : Z) : Z := (n + d - 1) / d.

Definition wf (this : AtomicBitVector) : Prop :=
  Z.of_nat (length (data_array_ this)) = ceil_div (size_ this) kBitsPerWord.

(** The values of [word_type]. *)
Definition is_word (w : Z) : Prop := 0 <= w < 2 ^ kBitsPerWord.

(** The sizes for which [size + kBitsPerWord - 1] is a value of
    [size_type]. *)
Definition fits (size : Z) : Prop :=
  0 <= size <= SIZE_MAX - (kBitsPerWord - 1).

(** The vectors a program gets from the constructors and the operations, as
    long as the sizes it asks for fit and the source of a move is not used
    again. *)
Inductive built : AtomicBitVector -> Prop :=
| built_size (n : Z) :
    fits n -> built (AtomicBitVector_size n)
| built_words (words : list Z) :
    Z.of_nat (length words) * kBitsPerWord <= PTRDIFF_MAX ->
    built (AtomicBitVector_words words)
| built_move (rhs : AtomicBitVector) :
    built rhs -> built (fst (AtomicBitVector_move rhs))
| built_move_assign (this rhs : AtomicBitVector) :
    built rhs -> built (fst (move_assign this rhs))
| built_set (this this' : AtomicBitVector) (i : Z) :
    built this -> set this i = Ok this' -> built this'
| built_unset (this this' : AtomicBitVector) (i : Z) :
    built this -> unset this i = Ok this' -> built this'
| built_try_lock (cas : list bool) (this this' : AtomicBitVector) (i : Z) (r : bool) :
    built this -> try_lock cas this i = Ok (r, this') -> built this'
| built_reset (this : AtomicBitVector) (n : Z) :
    fits n -> built (reset this n)
| built_swap_this (this rhs : AtomicBitVector) :
    built this -> built rhs -> built (fst (swap this rhs))
| built_swap_rhs (this rhs : AtomicBitVector) :
    built this -> built rhs -> built (snd (swap this rhs)).

(** [lock(i)]: [while (!try_lock(i)) continue;].  [sched] gives, for each
    call of [try_lock] in turn, the outcomes of its exchanges; the loop is
    [Spinning] when [sched] is used up before [try_lock] has returned true. *)
Fixpoint lock (sched : list (list bool)) (this : AtomicBitVector) (i : Z)
  : result AtomicBitVector :=
  match sched with
  | [] => Spinning
  | cas :: sched' =>
      match try_lock cas this i with
      | Ok (true, this') => Ok this'
      | Ok (false, this') => lock sched' this' i
      | OutOfBounds => OutOfBounds
      | Spinning => Spinning
      end
  end.

(** ** Several threads on one vector

    Each step of a thread makes one atomic access of the code, a [load], a
    [fetch_or], a [fetch_and] or a [compare_exchange_weak], and goes on to
    just before the next one.  A run interleaves the steps of the threads,
    each access seeing the words as the access before it left them: the
    accesses to one word are totally ordered in C++ as well, and the model
    takes one order for all words.  [reset], [swap] and the moves are not
    steps: the code leaves them to a caller that has the vector for
    itself. *)

(** The calls a thread makes. *)
Inductive call : Set :=
| call_set (i : Z)
| call_unset (i : Z)
| call_try_lock (i : Z)
| call_lock (i : Z)
| call_unlock (i : Z).

Definition call_index (c : call) : Z :=
  match c with
  | call_set i | call_unset i | call_try_lock i | call_lock i | call_unlock i => i
  end.

(** A thread: the loop of [try_lock(i)] it is in, if any, as the index [i],
    whether [lock(i)] made the call, and [old_value]; the calls it will make
    next; what its calls of [try_lock] have returned, the last one first. *)
Record thread : Type := {
  doing : option (Z * bool * Z);
  todo : list call;
  returned : list bool
}.

(** Between two calls. *)
Definition idle (rest : list call) (results : list bool) : thread :=
  {| doing := None; todo := rest; returned := results |}.

(** [try_lock(i)] with a fresh [old_value], from the [load] or from a failed
    exchange: the test of the loop.  The thread goes for an exchange, or
    [try_lock] returns false, upon which [lock] calls it again. *)
Definition after_load (i : Z) (from_lock : bool) (old_value : Z)
  (rest : list call) (results : list bool) : thread :=
  if Z.land (Z.shiftr old_value (i mod kBitsPerWord)) 1 =? 0 then
    {| doing := Some (i, from_lock, old_value); todo := rest; returned := results |}
  else if from_lock then idle (call_lock i :: rest) results
  else idle rest (false :: results).

(** One step of a thread: the thread and the vector afterwards. *)
Definition thread_step (spurious : bool) (t : thread) (this : AtomicBitVector)
  : result (thread * AtomicBitVector) :=
  match doing t with
  | Some (i, from_lock, old_value) =>
      let p := i / kBitsPerWord in
      w ← word_at (data_array_ this) p;
      let new_value :=
        Z.lor old_value (to_word (Z.shiftl 1 (i mod kBitsPerWord))) in
      match compare_exchange_weak spurious w old_value new_value with
      | (true, w', _) =>
          Ok (idle (todo t)
                (if from_lock then returned t else true :: returned t),
              {| size_ := size_ this;
                 data_array_ := <[Z.to_nat p := w']> (data_array_ this) |})
      | (false, w', old_value') =>
          Ok (after_load i from_lock old_value' (todo t) (returned t),
              {| size_ := size_ this;
                 data_array_ := <[Z.to_nat p := w']> (data_array_ this) |})
      end
  | None =>
      match todo t with
      | [] => Ok (t, this)
      | call_set i :: rest =>
          this' ← set this i; Ok (idle rest (returned t), this')
      | call_unset i :: rest =>
          this' ← unset this i; Ok (idle rest (returned t), this')
      | call_unlock i :: rest =>
          this' ← unlock this i; Ok (idle rest (returned t), this')
      | call_try_lock i :: rest =>
          w ← word_at (data_array_ this) (i / kBitsPerWord);
          Ok (after_load i false (load w) rest (returned t), this)
      | call_lock i :: rest =>
          w ← word_at (data_array_ this) (i / kBitsPerWord);
          Ok (after_load i true (load w) rest (returned t), this)
      end
  end.

(** A run: at each step the thread of the given number makes a step, its
    exchange failing spuriously or not as given.  A number without a thread
    is skipped. *)
Fixpoint run (sched : list (nat * bool)) (ts : list thread)
  (this : AtomicBitVector) : result (list thread * AtomicBitVector) :=
  match sched with
  | [] => Ok (ts, this)
  | (n, spurious) :: sched' =>
      match ts !! n with
      | None => run sched' ts this
      | Some t =>
          match thread_step spurious t this with
          | Ok (t', this') => run sched' (<[n := t']> ts) this'
          | OutOfBounds => OutOfBounds
          | Spinning => Spinning
          end
      end
  end.

(** *** Threads that use bit [i] of a vector of size [n] as a lock *)

(** A call on an in-range bit other than [i]. *)
Definition other (n i : Z) (c : call) : Prop :=
  0 <= call_index c < n /\ call_index c <> i.

(** The calls a thread may still make, when it holds the lock ([true]) and
    when it does not ([false]): it calls [lock(i)] only when it does not
    hold the lock and [unlock(i)] or [unset(i)] only when it does, never
    calls [set(i)], and leaves bit [i] alone after a call of [try_lock(i)]. *)
Inductive prog (n i : Z) : bool -> list call -> Prop :=
| prog_nil (h : bool) :
    prog n i h []
| prog_other (h : bool) (c : call) (rest : list call) :
    other n i c -> prog n i h rest -> prog n i h (c :: rest)
| prog_lock (rest : list call) :
    prog n i true rest -> prog n i false (call_lock i :: rest)
| prog_try_lock (rest : list call) :
    Forall (other n i) rest -> prog n i false (call_try_lock i :: rest)
| prog_unlock (rest : list call) :
    prog n i false rest -> prog n i true (call_unlock i :: rest)
| prog_unset (rest : list call) :
    prog n i false rest -> prog n i true (call_unset i :: rest).

(** Such a thread, holding the lock or not. *)
Inductive locker (n i : Z) : bool -> thread -> Prop :=
| locker_idle (h : bool) (rest : list call) (results : list bool) :
    prog n i h rest -> locker n i h (idle rest results)
| locker_other (h : bool) (j : Z) (from_lock : bool) (old_value : Z)
    (rest : list call) (results : list bool) :
    0 <= j < n -> j <> i -> prog n i h rest ->
    locker n i h {| doing := Some (j, from_lock, old_value);
                    todo := rest; returned := results |}
| locker_locking (old_value : Z) (rest : list call) (results : list bool) :
    Z.testbit old_value (i mod kBitsPerWord) = false ->
    prog n i true rest ->
    locker n i false {| doing := Some (i, true, old_value);
                        todo := rest; returned := results |}
| locker_trying (old_value : Z) (rest : list call) (results : list bool) :
    Z.testbit old_value (i mod kBitsPerWord) = false ->
    Forall (other n i) rest ->
    locker n i false {| doing := Some (i, false, old_value);
                        todo := rest; returned := results |}.

(** What a run keeps: the threads are lockers, [hs] telling which of them
    hold the lock; at most one does, and bit [i] is 1 when one does. *)
Definition mutex (n i : Z) (hs : list bool) (ts : list thread)
  (this : AtomicBitVector) : Prop :=
  size_ this = n /\ wf this /\
  Forall2 (locker n i) hs ts /\
  (forall a b, hs !! a = Some true -> hs !! b = Some true -> a = b) /\
  (forall a, hs !! a = Some true -> at_ this i = Ok true).

(** A thread whose next call on bit [i] is [unlock(i)]: it is between a
    [lock(i)] and the [unlock(i)] that follows. *)
Definition in_critical_section (n i : Z) (t : thread) : Prop :=
  (forall from_lock old_value, doing t <> Some (i, from_lock, old_value)) /\
  exists body rest,
    Forall (other n i) body /\ todo t = body ++ call_unlock i :: rest.

(** *** Threads that each call [try_lock(i)] once *)

Inductive racer (i : Z) : thread -> Prop :=
| racer_called :
    racer i (idle [call_try_lock i] [])
| racer_trying (old_value : Z) :
    Z.testbit old_value (i mod kBitsPerWord) = false ->
    racer i {| doing := Some (i, false, old_value); todo := []; returned := [] |}
| racer_returned (r : bool) :
    racer i (idle [] [r]).

(** What a run of such threads keeps, [b0] being bit [i] at the start: at
    most one thread has got true; one that has got true or false has seen
    the bit at 1, where it stays; the bit is 1 only if it was at the start
    or a thread has got true, and no thread gets true if it was. *)
Definition race (n i : Z) (b0 : bool) (ts : list thread)
  (this : AtomicBitVector) : Prop :=
  size_ this = n /\ wf this /\
  Forall (racer i) ts /\
  (forall a b ta tb,
     ts !! a = Some ta -> ts !! b = Some tb ->
     returned ta = [true] -> returned tb = [true] -> a = b) /\
  (forall a ta,
     ts !! a = Some ta -> returned ta = [true] ->
     b0 = false /\ at_ this i = Ok true) /\
  (forall a ta,
     ts !! a = Some ta -> returned ta = [false] -> at_ this i = Ok true) /\
  (b0 = true -> at_ this i = Ok true) /\
  (at_ this i = Ok true ->
   b0 = true \/ exists a ta, ts !! a = Some ta /\ returned ta = [true]).

(** *** Threads that leave bit [j] alone *)

Definition quiet (n j : Z) (t : thread) : Prop :=
  Forall (other n j) (todo t) /\
  match doing t with
  | Some (k, _, _) => 0 <= k < n /\ k <> j
  | None => True
  end.

(** ** Words and masks *)

Lemma kBitsPerWord_cases :
  kBitsPerWord = 8 \/ kBitsPerWord = 16 \/ kBitsPerWord = 32 \/ kBitsPerWord = 64.
Proof. unfold kBitsPerWord. destruct word_type; vm_compute; tauto. Qed.

Lemma kBitsPerWord_pos : 0 < kBitsPerWord.
Proof. pose proof kBitsPerWord_cases. lia. Qed.

Lemma offset_range (i : Z) : 0 <= i mod kBitsPerWord < kBitsPerWord.
Proof. apply Z.mod_pos_bound, kBitsPerWord_pos. Qed.

(** [word_type(1) << k] is the power of two; nothing is shifted out. *)
Lemma mask_pow2 (k : Z) :
  0 <= k < kBitsPerWord -> to_word (Z.shiftl 1 k) = 2 ^ k.
Proof.
  intros Hk. unfold to_word. rewrite Z.shiftl_1_l.
  apply Z.mod_small. split; [apply Z.pow_nonneg; lia|].
  apply Z.pow_lt_mono_r; lia.
Qed.

Lemma land_pow2 (w k : Z) :
  0 <= k -> Z.land w (2 ^ k) = if Z.testbit w k then 2 ^ k else 0.
Proof.
  intros Hk. apply Z.bits_inj'. intros n Hn.
  rewrite Z.land_spec, Z.pow2_bits_eqb by lia.
  destruct (Z.eqb_spec k n) as [->|Hne].
  - destruct (Z.testbit w n); simpl.
    + now rewrite Z.pow2_bits_true.
    + now rewrite Z.bits_0.
  - rewrite andb_false_r.
    destruct (Z.testbit w k).
    + now rewrite Z.pow2_bits_false.
    + now rewrite Z.bits_0.
Qed.

(** The test of [at]: [!!(w & (word_type(1) << k))] *)
Lemma test_mask (w k : Z) :
  0 <= k < kBitsPerWord ->
  negb (Z.land w (to_word (Z.shiftl 1 k)) =? 0) = Z.testbit w k.
Proof.
  intros Hk. rewrite mask_pow2, land_pow2 by lia.
  assert (0 < 2 ^ k) by (apply Z.pow_pos_nonneg; lia).
  destruct (Z.testbit w k); simpl.
  - destruct (Z.eqb_spec (2 ^ k) 0); [lia | reflexivity].
  - reflexivity.
Qed.

(** The test of [try_lock]: [!((w >> k) & 1)] *)
Lemma test_shift (w k : Z) :
  0 <= k -> (Z.land (Z.shiftr w k) 1 =? 0) = negb (Z.testbit w k).
Proof.
  intros Hk. change 1 with (2 ^ 0). rewrite land_pow2 by lia.
  rewrite Z.shiftr_spec, Z.add_0_l by lia.
  now destruct (Z.testbit w k).
Qed.

Lemma set_bit_spec (w k n : Z) :
  0 <= k < kBitsPerWord -> 0 <= n ->
  Z.testbit (Z.lor w (to_word (Z.shiftl 1 k))) n = Z.testbit w n || (k =? n).
Proof.
  intros Hk Hn. rewrite mask_pow2 by lia.
  now rewrite Z.lor_spec, Z.pow2_bits_eqb by lia.
Qed.

Lemma clear_bit_spec (w k n : Z) :
  0 <= k < kBitsPerWord -> 0 <= n < kBitsPerWord ->
  Z.testbit (Z.land w (to_word (Z.lnot (to_word (Z.shiftl 1 k))))) n
  = Z.testbit w n && negb (k =? n).
Proof.
  intros Hk Hn. rewrite mask_pow2 by lia.
  rewrite Z.land_spec. unfold to_word.
  rewrite Z.mod_pow2_bits_low by lia.
  now rewrite Z.lnot_spec, Z.pow2_bits_eqb by lia.
Qed.

(** ** The word that owns a bit *)

Lemma word_index_bound (n i : Z) :
  0 <= i < n -> 0 <= i / kBitsPerWord < ceil_div n kBitsPerWord.
Proof.
  intros Hi. pose proof kBitsPerWord_pos as HW. unfold ceil_div. split.
  - apply Z.div_pos; lia.
  - apply Z.lt_le_trans with ((i + 1 * kBitsPerWord) / kBitsPerWord).
    + rewrite Z.div_add by lia. lia.
    + apply Z.div_le_mono; lia.
Qed.

Lemma owning_word (this : AtomicBitVector) (i : Z) :
  wf this -> 0 <= i < size this ->
  exists w, data_array_ this !! Z.to_nat (i / kBitsPerWord) = Some w.
Proof.
  unfold wf, size. intros Hwf Hi.
  pose proof (word_index_bound (size_ this) i Hi) as Hk.
  apply lookup_lt_is_Some_2. lia.
Qed.

Lemma same_word_offsets (i j : Z) :
  i <> j -> i / kBitsPerWord = j / kBitsPerWord ->
  i mod kBitsPerWord <> j mod kBitsPerWord.
Proof.
  intros Hne Hq Hr. apply Hne. pose proof kBitsPerWord_pos.
  rewrite (Z.div_mod i kBitsPerWord), (Z.div_mod j kBitsPerWord) by lia.
  now rewrite Hq, Hr.
Qed.

Lemma word_at_Some (a : list Z) (k w : Z) :
  a !! Z.to_nat k = Some w -> word_at a k = Ok w.
Proof. unfold word_at. now intros ->. Qed.

(** [at] reads one bit of the owning word. *)
Lemma at_word (this : AtomicBitVector) (i w : Z) :
  data_array_ this !! Z.to_nat (i / kBitsPerWord) = Some w ->
  at_ this i = Ok (Z.testbit w (i mod kBitsPerWord)).
Proof.
  intros Hw. unfold at_. rewrite (word_at_Some _ _ _ Hw). simpl.
  unfold load. now rewrite test_mask by apply offset_range.
Qed.

(** [at] after the word owning bit [i] has been replaced by [w']. *)
Lemma at_replaced (this : AtomicBitVector) (i j w w' : Z) :
  0 <= i -> 0 <= j ->
  data_array_ this !! Z.to_nat (i / kBitsPerWord) = Some w ->
  at_ {| size_ := size_ this;
         data_array_ := <[Z.to_nat (i / kBitsPerWord) := w']> (data_array_ this) |} j
  = if i / kBitsPerWord =? j / kBitsPerWord
    then Ok (Z.testbit w' (j mod kBitsPerWord))
    else at_ this j.
Proof.
  intros Hi Hj Hw. pose proof kBitsPerWord_pos as HW.
  assert (0 <= i / kBitsPerWord) by (apply Z.div_pos; lia).
  assert (0 <= j / kBitsPerWord) by (apply Z.div_pos; lia).
  destruct (Z.eqb_spec (i / kBitsPerWord) (j / kBitsPerWord)) as [Heq|Hne].
  - apply at_word. simpl. rewrite <- Heq.
    apply list_lookup_insert_eq. now apply lookup_lt_Some with w.
  - unfold at_, word_at. simpl.
    rewrite list_lookup_insert_ne by lia. reflexivity.
Qed.

(** What [set], [unset] and [try_lock] do once the owning word is known. *)
Lemma set_word (this : AtomicBitVector) (i w : Z) :
  data_array_ this !! Z.to_nat (i / kBitsPerWord) = Some w ->
  set this i =
  Ok {| size_ := size_ this;
        data_array_ :=
          <[Z.to_nat (i / kBitsPerWord) :=
              Z.lor w (to_word (Z.shiftl 1 (i mod kBitsPerWord)))]>
            (data_array_ this) |}.
Proof.
  intros Hw. unfold set, word_rmw. now rewrite (word_at_Some _ _ _ Hw).
Qed.

Lemma unset_word (this : AtomicBitVector) (i w : Z) :
  data_array_ this !! Z.to_nat (i / kBitsPerWord) = Some w ->
  unset this i =
  Ok {| size_ := size_ this;
        data_array_ :=
          <[Z.to_nat (i / kBitsPerWord) :=
              Z.land w (to_word (Z.lnot (to_word (Z.shiftl 1 (i mod kBitsPerWord)))))]>
            (data_array_ this) |}.
Proof.
  intros Hw. unfold unset, word_rmw. now rewrite (word_at_Some _ _ _ Hw).
Qed.

(** The loop on a word no other thread writes: [old_value] is the stored
    word whenever the test of the loop is evaluated. *)
Lemma try_lock_loop_held (cas : list bool) (w i : Z) :
  Z.testbit w (i mod kBitsPerWord) = true ->
  try_lock_loop cas w w i = Ok (false, w).
Proof.
  intros Hb. destruct cas; simpl;
    now rewrite test_shift, Hb by apply offset_range.
Qed.

Lemma try_lock_loop_free (cas : list bool) (w i : Z) :
  Z.testbit w (i mod kBitsPerWord) = false ->
  In false cas ->
  try_lock_loop cas w w i
  = Ok (true, Z.lor w (to_word (Z.shiftl 1 (i mod kBitsPerWord)))).
Proof.
  intros Hb. induction cas as [|spurious cas IH]; intros Hin.
  - destruct Hin.
  - simpl. rewrite test_shift, Hb by apply offset_range. simpl.
    unfold compare_exchange_weak. destruct spurious; simpl.
    + apply IH. destruct Hin as [Heq|Hin]; [discriminate | exact Hin].
    + now rewrite Z.eqb_refl.
Qed.

Lemma try_lock_loop_spurious (cas : list bool) (w i : Z) :
  Z.testbit w (i mod kBitsPerWord) = false ->
  ~ In false cas ->
  try_lock_loop cas w w i = Spinning.
Proof.
  intros Hb. induction cas as [|spurious cas IH]; intros Hin; simpl;
    rewrite test_shift, Hb by apply offset_range; simpl.
  - reflexivity.
  - unfold compare_exchange_weak. destruct spurious; simpl.
    + apply IH. intros H. apply Hin. now right.
    + exfalso. apply Hin. now left.
Qed.

Lemma try_lock_loop_in_bounds (cas : list bool) (stored old_value i : Z) :
  try_lock_loop cas stored old_value i <> OutOfBounds.
Proof.
  revert stored old_value.
  induction cas as [|spurious cas IH]; intros stored old_value; simpl.
  - now destruct (_ =? 0).
  - destruct (_ =? 0); [|discriminate].
    destruct (compare_exchange_weak _ _ _ _) as [[[] stored'] old_value'];
      [discriminate | apply IH].
Qed.

Lemma wf_same_shape (this : AtomicBitVector) (k : nat) (w : Z) :
  wf this ->
  wf {| size_ := size_ this; data_array_ := <[k := w]> (data_array_ this) |}.
Proof. unfold wf. simpl. now rewrite length_insert. Qed.

Lemma try_lock_word (cas : list bool) (this : AtomicBitVector) (i w : Z) :
  data_array_ this !! Z.to_nat (i / kBitsPerWord) = Some w ->
  try_lock cas this i =
  (r ← try_lock_loop cas w w i;
   Ok (fst r,
       {| size_ := size_ this;
          data_array_ :=
            <[Z.to_nat (i / kBitsPerWord) := snd r]> (data_array_ this) |})).
Proof.
  intros Hw. unfold try_lock. now rewrite (word_at_Some _ _ _ Hw).
Qed.

Lemma at_replaced_frame (this : AtomicBitVector) (i j w w' : Z) :
  0 <= i -> 0 <= j ->
  data_array_ this !! Z.to_nat (i / kBitsPerWord) = Some w ->
  (i / kBitsPerWord = j / kBitsPerWord ->
   Z.testbit w' (j mod kBitsPerWord) = Z.testbit w (j mod kBitsPerWord)) ->
  at_ {| size_ := size_ this;
         data_array_ := <[Z.to_nat (i / kBitsPerWord) := w']> (data_array_ this) |} j
  = at_ this j.
Proof.
  intros Hi Hj Hw Hsame. rewrite (at_replaced this i j w) by assumption.
  destruct (Z.eqb_spec (i / kBitsPerWord) (j / kBitsPerWord)) as [Heq|Hne].
  - rewrite (Hsame Heq). symmetry. apply at_word. now rewrite <- Heq.
  - reflexivity.
Qed.

Lemma replaced_word (this : AtomicBitVector) (k : nat) (w w' : Z) :
  data_array_ this !! k = Some w ->
  data_array_ {| size_ := size_ this;
                 data_array_ := <[k := w']> (data_array_ this) |} !! k = Some w'.
Proof.
  intros Hw. simpl. apply list_lookup_insert_eq. now apply lookup_lt_Some with w.
Qed.

(** ** The lock protocol *)

(** C1. On a vector that satisfies the invariant and for an in-range index
    [i], [try_lock(i)] returns true if and only if bit [i] was 0 before the
    call; when it returns true bit [i] is 1
    afterwards, and when bit [i] was already 1 it returns false.  The call
    returns as soon as one [compare_exchange_weak] does not fail
    spuriously. *)
Theorem try_lock_spec (cas : list bool) (this : AtomicBitVector) (i : Z) :
  wf this -> 0 <= i < size this -> In false cas ->
  exists (b r : bool) (this' : AtomicBitVector),
    at_ this i = Ok b /\
    try_lock cas this i = Ok (r, this') /\
    (r = true <-> b = false) /\
    (r = true -> at_ this' i = Ok true) /\
    (b = true -> r = false).
Proof.
  intros Hwf Hi Hcas.
  destruct (owning_word this i Hwf Hi) as [w Hw].
  rewrite (at_word _ _ _ Hw), (try_lock_word _ _ _ _ Hw).
  destruct (Z.testbit w (i mod kBitsPerWord)) eqn:Hb.
  - rewrite try_lock_loop_held by exact Hb. simpl.
    eexists true, false, _. repeat split; intros; congruence.
  - rewrite try_lock_loop_free by assumption. simpl.
    eexists false, true, _. repeat split; try congruence.
    intros _. rewrite (at_replaced this i i w) by (assumption || lia).
    rewrite Z.eqb_refl, set_bit_spec by apply offset_range.
    now rewrite Z.eqb_refl, orb_true_r.
Qed.

(** ** Bits *)

(** C2. On a vector that satisfies the invariant and for in-range indices
    [i] and [j] with [j <> i], none of [set(i)],
    [unset(i)] and [try_lock(i)] changes what [at(j)] returns, whether or not
    the two bits lie in the same word. *)
Theorem bit_independence (cas : list bool) (this : AtomicBitVector) (i j : Z) :
  wf this -> 0 <= i < size this -> 0 <= j < size this -> j <> i ->
  In false cas ->
  exists b : bool,
    at_ this j = Ok b /\
    (exists this', set this i = Ok this' /\ at_ this' j = Ok b) /\
    (exists this', unset this i = Ok this' /\ at_ this' j = Ok b) /\
    (exists r this', try_lock cas this i = Ok (r, this') /\ at_ this' j = Ok b).
Proof.
  intros Hwf Hi Hj Hne Hcas.
  destruct (owning_word this i Hwf Hi) as [w Hw].
  destruct (owning_word this j Hwf Hj) as [wj Hwj].
  pose proof (offset_range i) as Hoi. pose proof (offset_range j) as Hoj.
  assert (Hoff : i / kBitsPerWord = j / kBitsPerWord ->
                 (i mod kBitsPerWord =? j mod kBitsPerWord) = false).
  { intros Heq. apply Z.eqb_neq, same_word_offsets; [congruence | exact Heq]. }
  exists (Z.testbit wj (j mod kBitsPerWord)).
  rewrite <- (at_word _ _ _ Hwj).
  split; [reflexivity|]. split; [|split].
  - eexists. split; [apply (set_word _ _ _ Hw)|].
    apply (at_replaced_frame this i j w); try assumption || lia.
    intros Heq. rewrite set_bit_spec, (Hoff Heq) by lia. apply orb_false_r.
  - eexists. split; [apply (unset_word _ _ _ Hw)|].
    apply (at_replaced_frame this i j w); try assumption || lia.
    intros Heq. rewrite clear_bit_spec, (Hoff Heq) by lia. apply andb_true_r.
  - rewrite (try_lock_word _ _ _ _ Hw).
    destruct (Z.testbit w (i mod kBitsPerWord)) eqn:Hb.
    + rewrite try_lock_loop_held by exact Hb. simpl.
      eexists _, _. split; [reflexivity|].
      now apply (at_replaced_frame this i j w); try assumption || lia.
    + rewrite try_lock_loop_free by assumption. simpl.
      eexists _, _. split; [reflexivity|].
      apply (at_replaced_frame this i j w); try assumption || lia.
      intros Heq. rewrite set_bit_spec, (Hoff Heq) by lia. apply orb_false_r.
Qed.

(** C5. On a vector that satisfies the invariant and for an in-range index
    [i], [at(i)] is true after [set(i)] and false
    after a following [unset(i)]; [unlock(i)] does what [unset(i)] does. *)
Theorem set_unset_at (this : AtomicBitVector) (i : Z) :
  wf this -> 0 <= i < size this ->
  (exists this1 this2,
     set this i = Ok this1 /\ at_ this1 i = Ok true /\
     unset this1 i = Ok this2 /\ at_ this2 i = Ok false) /\
  (forall (that : AtomicBitVector) (k : Z), unlock that k = unset that k).
Proof.
  intros Hwf Hi. split; [|reflexivity].
  destruct (owning_word this i Hwf Hi) as [w Hw].
  pose proof (offset_range i) as Hoi.
  pose proof (replaced_word this _ w
    (Z.lor w (to_word (Z.shiftl 1 (i mod kBitsPerWord)))) Hw) as Hw1.
  eexists _, _. split; [apply (set_word _ _ _ Hw)|]. split; [|split].
  - rewrite (at_word _ _ _ Hw1), set_bit_spec by lia.
    now rewrite Z.eqb_refl, orb_true_r.
  - apply (unset_word _ _ _ Hw1).
  - erewrite at_replaced by (exact Hw1 || lia).
    rewrite Z.eqb_refl, clear_bit_spec by lia.
    now rewrite Z.eqb_refl, andb_false_r.
Qed.

(** C6. On a vector that satisfies the invariant and for an in-range index
    [i], a second [set(i)] leaves the size and
    every bit as the first [set(i)] left them; the same holds for
    [unset(i)]. *)
Theorem set_unset_idempotent (this : AtomicBitVector) (i : Z) :
  wf this -> 0 <= i < size this ->
  (exists this1 this2,
     set this i = Ok this1 /\ set this1 i = Ok this2 /\
     size this2 = size this1 /\ forall j, at_ this2 j = at_ this1 j) /\
  (exists this1 this2,
     unset this i = Ok this1 /\ unset this1 i = Ok this2 /\
     size this2 = size this1 /\ forall j, at_ this2 j = at_ this1 j).
Proof.
  intros Hwf Hi.
  destruct (owning_word this i Hwf Hi) as [w Hw].
  split.
  - pose proof (replaced_word this _ w
      (Z.lor w (to_word (Z.shiftl 1 (i mod kBitsPerWord)))) Hw) as Hw1.
    eexists _, _. split; [apply (set_word _ _ _ Hw)|].
    split; [apply (set_word _ _ _ Hw1)|]. simpl.
    rewrite list_insert_insert_eq, <- Z.lor_assoc, Z.lor_diag.
    split; reflexivity.
  - pose proof (replaced_word this _ w
      (Z.land w (to_word (Z.lnot (to_word (Z.shiftl 1 (i mod kBitsPerWord))))))
      Hw) as Hw1.
    eexists _, _. split; [apply (unset_word _ _ _ Hw)|].
    split; [apply (unset_word _ _ _ Hw1)|]. simpl.
    rewrite list_insert_insert_eq, <- Z.land_assoc, Z.land_diag.
    split; reflexivity.
Qed.

(** C10. For an in-range index [i], the word index [i / kBitsPerWord] that
    [set], [unset], [at] and [try_lock] compute is below the number of
    stored words, ceil(size / kBitsPerWord), so none of them leaves the
    storage. *)
Theorem word_access_in_bounds (this : AtomicBitVector) (i : Z) :
  wf this -> 0 <= i < size this ->
  0 <= i / kBitsPerWord < Z.of_nat (length (data_array_ this)) /\
  (exists b, at_ this i = Ok b) /\
  (exists this', set this i = Ok this') /\
  (exists this', unset this i = Ok this') /\
  (forall cas, try_lock cas this i <> OutOfBounds).
Proof.
  intros Hwf Hi. split.
  - rewrite Hwf. now apply word_index_bound.
  - destruct (owning_word this i Hwf Hi) as [w Hw].
    split; [|split; [|split]].
    + eexists. apply (at_word _ _ _ Hw).
    + eexists. apply (set_word _ _ _ Hw).
    + eexists. apply (unset_word _ _ _ Hw).
    + intros cas. rewrite (try_lock_word _ _ _ _ Hw).
      pose proof (try_lock_loop_in_bounds cas w w i) as Hloop.
      destruct (try_lock_loop cas w w i); simpl; congruence.
Qed.

(** ** Construction, reset, move and swap *)

Lemma to_size_small (x : Z) : 0 <= x <= SIZE_MAX -> to_size x = x.
Proof. unfold to_size, SIZE_MAX. intros Hx. apply Z.mod_small. lia. Qed.

(** The word count is the ceiling as long as [size + kBitsPerWord - 1] is a
    value of [size_type]. *)
Lemma word_count_ceil (n : Z) :
  fits n -> word_count n = ceil_div n kBitsPerWord.
Proof.
  unfold fits. intros Hn. pose proof kBitsPerWord_pos.
  unfold word_count, ceil_div.
  unfold to_size at 1 2. rewrite Zminus_mod_idemp_l.
  fold (to_size (n + kBitsPerWord - 1)). now rewrite to_size_small by lia.
Qed.

(** Above that bound the sum wraps around and no word is counted. *)
Lemma word_count_wrapped (n : Z) :
  SIZE_MAX - (kBitsPerWord - 1) < n <= SIZE_MAX -> word_count n = 0.
Proof.
  intros Hn. pose proof kBitsPerWord_cases as HW.
  unfold word_count. unfold to_size at 1 2. rewrite Zminus_mod_idemp_l.
  unfold SIZE_MAX, size_type_bits in *.
  replace (n + kBitsPerWord - 1)
    with (n + kBitsPerWord - 1 - 2 ^ 64 + 1 * 2 ^ 64) by lia.
  rewrite Z.mod_add, Z.mod_small by lia.
  apply Z.div_small. lia.
Qed.

Lemma array_type_length (n : Z) : 0 <= n -> Z.of_nat (length (array_type n)) = n.
Proof. intros Hn. unfold array_type. rewrite length_replicate. lia. Qed.

Lemma ceil_div_nonneg (n : Z) : 0 <= n -> 0 <= ceil_div n kBitsPerWord.
Proof.
  intros Hn. pose proof kBitsPerWord_pos. unfold ceil_div.
  apply Z.div_pos; lia.
Qed.

Lemma at_zeroed (size n i : Z) :
  0 <= i / kBitsPerWord < n ->
  at_ {| size_ := size; data_array_ := array_type n |} i = Ok false.
Proof.
  intros Hi.
  rewrite (at_word _ i 0).
  - now rewrite Z.bits_0.
  - simpl. unfold array_type. apply lookup_replicate_2. lia.
Qed.

(** [AtomicBitVector(size)] below the wrap-around: ceil(size / kBitsPerWord)
    words, the invariant, and every bit false. *)
Lemma AtomicBitVector_size_spec (n : Z) :
  fits n ->
  size (AtomicBitVector_size n) = n /\
  Z.of_nat (length (data_array_ (AtomicBitVector_size n)))
  = ceil_div n kBitsPerWord /\
  wf (AtomicBitVector_size n) /\
  forall i, 0 <= i < n -> at_ (AtomicBitVector_size n) i = Ok false.
Proof.
  intros Hn.
  assert (Hlen : Z.of_nat (length (data_array_ (AtomicBitVector_size n)))
                 = ceil_div n kBitsPerWord).
  { simpl. rewrite word_count_ceil by exact Hn.
    apply array_type_length, ceil_div_nonneg. apply Hn. }
  split; [reflexivity|]. split; [exact Hlen|]. split; [exact Hlen|].
  intros i Hi. apply at_zeroed.
  rewrite word_count_ceil by exact Hn. now apply word_index_bound.
Qed.

(** The default argument: no bit, no word. *)
Lemma AtomicBitVector_size_0 :
  AtomicBitVector_size 0 = {| size_ := 0; data_array_ := [] |}.
Proof. unfold AtomicBitVector_size, word_count, kBitsPerWord. now destruct word_type. Qed.

(** [reset(size)] below the wrap-around. *)
Lemma reset_spec (this : AtomicBitVector) (n : Z) :
  fits n ->
  size (reset this n) = n /\
  wf (reset this n) /\
  forall i, 0 <= i < n -> at_ (reset this n) i = Ok false.
Proof.
  intros Hn.
  destruct (AtomicBitVector_size_spec n Hn) as (Hsize & _ & Hwf & Hbits).
  now change (reset this n) with (AtomicBitVector_size n).
Qed.


(** The source of a move keeps its [size_] and loses its words. *)
Lemma move_source (this rhs : AtomicBitVector) :
  snd (AtomicBitVector_move rhs) = {| size_ := size_ rhs; data_array_ := [] |} /\
  snd (move_assign this rhs) = {| size_ := size_ rhs; data_array_ := [] |}.
Proof. split; reflexivity. Qed.


Lemma AtomicBitVector_words_size (words : list Z) :
  Z.of_nat (length words) * kBitsPerWord <= PTRDIFF_MAX ->
  size_ (AtomicBitVector_words words) = Z.of_nat (length words) * kBitsPerWord.
Proof.
  intros Hrep. pose proof kBitsPerWord_pos as HW.
  simpl. apply to_size_small.
  unfold PTRDIFF_MAX, SIZE_MAX, size_type_bits in *. simpl in *. lia.
Qed.

Lemma AtomicBitVector_words_wf (words : list Z) :
  Z.of_nat (length words) * kBitsPerWord <= PTRDIFF_MAX ->
  wf (AtomicBitVector_words words).
Proof.
  intros Hrep. pose proof kBitsPerWord_pos as HW.
  unfold wf. rewrite AtomicBitVector_words_size by exact Hrep. simpl.
  rewrite length_fmap. unfold ceil_div.
  replace (Z.of_nat (length words) * kBitsPerWord + kBitsPerWord - 1)
    with (kBitsPerWord - 1 + Z.of_nat (length words) * kBitsPerWord) by lia.
  rewrite Z.div_add, Z.div_small by lia. lia.
Qed.

(** C8. A vector built from a sequence of [w] words has size
    [w * kBitsPerWord], and [at(i)] is bit [i mod kBitsPerWord] of word
    [i / kBitsPerWord] of the sequence.  The product [w * kBitsPerWord] is
    formed in [ptrdiff_t] and has to be one of its values. *)
Theorem AtomicBitVector_words_spec (words : list Z) :
  Z.of_nat (length words) * kBitsPerWord <= PTRDIFF_MAX ->
  size (AtomicBitVector_words words) = Z.of_nat (length words) * kBitsPerWord /\
  forall i, 0 <= i < Z.of_nat (length words) * kBitsPerWord ->
    exists w, words !! Z.to_nat (i / kBitsPerWord) = Some w /\
              at_ (AtomicBitVector_words words) i
              = Ok (Z.testbit w (i mod kBitsPerWord)).
Proof.
  intros Hrep. pose proof kBitsPerWord_pos as HW. split.
  - now apply AtomicBitVector_words_size.
  - intros i Hi.
    assert (Hk : 0 <= i / kBitsPerWord < Z.of_nat (length words)).
    { split; [apply Z.div_pos; lia|]. apply Z.div_lt_upper_bound; lia. }
    destruct (lookup_lt_is_Some_2 words (Z.to_nat (i / kBitsPerWord)))
      as [w Hw]; [lia|].
    exists w. split; [exact Hw|].
    rewrite (at_word _ i (to_word w)).
    + unfold to_word. now rewrite Z.mod_pow2_bits_low by apply offset_range.
    + simpl. now rewrite list_lookup_fmap, Hw.
Qed.

(** C9. After [A.swap(B)] the size and every bit of [A] are those [B] had,
    and the size and every bit of [B] are those [A] had. *)
Theorem swap_spec (this rhs : AtomicBitVector) :
  exists this' rhs',
    swap this rhs = (this', rhs') /\
    size this' = size rhs /\ (forall i, at_ this' i = at_ rhs i) /\
    size rhs' = size this /\ (forall i, at_ rhs' i = at_ this i).
Proof.
  destruct this as [s1 d1], rhs as [s2 d2].
  eexists _, _. split; [reflexivity|]. repeat split.
Qed.

Lemma swap_wf (this rhs : AtomicBitVector) :
  wf this -> wf rhs -> wf (fst (swap this rhs)) /\ wf (snd (swap this rhs)).
Proof. destruct this, rhs. simpl. tauto. Qed.

(** ** The invariant holds of every vector built *)

Lemma is_word_land_ones (w : Z) :
  is_word w <-> Z.land w (Z.ones kBitsPerWord) = w.
Proof.
  pose proof kBitsPerWord_pos as HW. unfold is_word.
  rewrite Z.land_ones by lia. split.
  - apply Z.mod_small.
  - intros <-. apply Z.mod_pos_bound, Z.pow_pos_nonneg; lia.
Qed.

Lemma is_word_to_word (x : Z) : is_word (to_word x).
Proof.
  pose proof kBitsPerWord_pos as HW.
  apply Z.mod_pos_bound, Z.pow_pos_nonneg; lia.
Qed.

Lemma is_word_lor (w m : Z) : is_word w -> is_word m -> is_word (Z.lor w m).
Proof.
  rewrite !is_word_land_ones. intros Hw Hm.
  now rewrite Z.land_lor_distr_l, Hw, Hm.
Qed.

Lemma is_word_land (w m : Z) : is_word m -> is_word (Z.land w m).
Proof.
  rewrite !is_word_land_ones. intros Hm.
  now rewrite <- Z.land_assoc, Hm.
Qed.

Lemma try_lock_loop_is_word (cas : list bool) (stored old_value i w' : Z) (r : bool) :
  is_word stored -> is_word old_value ->
  try_lock_loop cas stored old_value i = Ok (r, w') -> is_word w'.
Proof.
  revert stored old_value.
  induction cas as [|spurious cas IH]; intros stored old_value Hs Ho; simpl.
  - destruct (_ =? 0); [discriminate|]. now intros [= _ <-].
  - destruct (_ =? 0); [|now intros [= _ <-]].
    unfold compare_exchange_weak.
    destruct (negb spurious && (stored =? old_value)).
    + intros [= _ <-]. apply is_word_lor; [exact Ho | apply is_word_to_word].
    + now apply IH.
Qed.

Lemma set_inv (this this' : AtomicBitVector) (i : Z) :
  set this i = Ok this' ->
  exists w, data_array_ this !! Z.to_nat (i / kBitsPerWord) = Some w /\
    this' = {| size_ := size_ this;
               data_array_ :=
                 <[Z.to_nat (i / kBitsPerWord) :=
                     Z.lor w (to_word (Z.shiftl 1 (i mod kBitsPerWord)))]>
                   (data_array_ this) |}.
Proof.
  destruct (data_array_ this !! Z.to_nat (i / kBitsPerWord)) as [w|] eqn:Hw.
  - rewrite (set_word _ _ _ Hw). intros [= <-]. now exists w.
  - unfold set, word_rmw, word_at. rewrite Hw. discriminate.
Qed.

Lemma unset_inv (this this' : AtomicBitVector) (i : Z) :
  unset this i = Ok this' ->
  exists w, data_array_ this !! Z.to_nat (i / kBitsPerWord) = Some w /\
    this' = {| size_ := size_ this;
               data_array_ :=
                 <[Z.to_nat (i / kBitsPerWord) :=
                     Z.land w (to_word (Z.lnot (to_word
                       (Z.shiftl 1 (i mod kBitsPerWord)))))]>
                   (data_array_ this) |}.
Proof.
  destruct (data_array_ this !! Z.to_nat (i / kBitsPerWord)) as [w|] eqn:Hw.
  - rewrite (unset_word _ _ _ Hw). intros [= <-]. now exists w.
  - unfold unset, word_rmw, word_at. rewrite Hw. discriminate.
Qed.

Lemma try_lock_inv (cas : list bool) (this this' : AtomicBitVector) (i : Z) (r : bool) :
  try_lock cas this i = Ok (r, this') ->
  exists w w', data_array_ this !! Z.to_nat (i / kBitsPerWord) = Some w /\
    try_lock_loop cas w w i = Ok (r, w') /\
    this' = {| size_ := size_ this;
               data_array_ :=
                 <[Z.to_nat (i / kBitsPerWord) := w']> (data_array_ this) |}.
Proof.
  destruct (data_array_ this !! Z.to_nat (i / kBitsPerWord)) as [w|] eqn:Hw.
  - rewrite (try_lock_word _ _ _ _ Hw).
    destruct (try_lock_loop cas w w i) as [[r' w']| |] eqn:Hloop; simpl;
      try discriminate.
    intros [= <- <-]. now exists w, w'.
  - unfold try_lock, word_at. rewrite Hw. discriminate.
Qed.

Lemma built_invariant (this : AtomicBitVector) :
  built this -> wf this /\ Forall is_word (data_array_ this).
Proof.
  induction 1 as
    [ n Hn | words Hrep | rhs _ IH | this rhs _ IH
    | this this' i _ IH Hop | this this' i _ IH Hop
    | cas this this' i r _ IH Hop | this n Hn
    | this rhs _ IH1 _ IH2 | this rhs _ IH1 _ IH2 ].
  - split; [apply AtomicBitVector_size_spec, Hn|].
    apply Forall_replicate. unfold is_word.
    pose proof kBitsPerWord_pos. split; [lia | apply Z.pow_pos_nonneg; lia].
  - split; [now apply AtomicBitVector_words_wf|].
    simpl. apply Forall_fmap, Forall_forall. intros w _. apply is_word_to_word.
  - now destruct rhs.
  - now destruct rhs.
  - destruct IH as [Hwf Hwords].
    destruct (set_inv _ _ _ Hop) as (w & Hw & ->).
    split; [now apply wf_same_shape|]. simpl.
    apply Forall_insert; [exact Hwords|].
    apply is_word_lor; [|apply is_word_to_word].
    exact (Forall_lookup_1 _ _ _ _ Hwords Hw).
  - destruct IH as [Hwf Hwords].
    destruct (unset_inv _ _ _ Hop) as (w & Hw & ->).
    split; [now apply wf_same_shape|]. simpl.
    apply Forall_insert; [exact Hwords|].
    apply is_word_land, is_word_to_word.
  - destruct IH as [Hwf Hwords].
    destruct (try_lock_inv _ _ _ _ _ Hop) as (w & w' & Hw & Hloop & ->).
    split; [now apply wf_same_shape|]. simpl.
    apply Forall_insert; [exact Hwords|].
    pose proof (Forall_lookup_1 _ _ _ _ Hwords Hw) as Hword.
    exact (try_lock_loop_is_word _ _ _ _ _ _ Hword Hword Hloop).
  - split; [apply reset_spec, Hn|].
    apply Forall_replicate. unfold is_word.
    pose proof kBitsPerWord_pos. split; [lia | apply Z.pow_pos_nonneg; lia].
  - destruct this, rhs. exact IH2.
  - destruct this, rhs. exact IH1.
Qed.


(** ** More on single bits *)

Lemma is_word_high (w n : Z) :
  is_word w -> kBitsPerWord <= n -> Z.testbit w n = false.
Proof.
  intros Hw Hn. pose proof kBitsPerWord_pos.
  apply is_word_land_ones in Hw. rewrite <- Hw, Z.land_spec.
  rewrite Z.ones_spec_high by lia. apply andb_false_r.
Qed.

(** The bits of a word after [fetch_and] with the mask of [unset]. *)
Lemma clear_bit_bits (w k n : Z) :
  0 <= k < kBitsPerWord -> 0 <= n ->
  Z.testbit (Z.land w (to_word (Z.lnot (to_word (Z.shiftl 1 k))))) n
  = Z.testbit w n && negb (k =? n) && (n <? kBitsPerWord).
Proof.
  intros Hk Hn. destruct (Z.ltb_spec n kBitsPerWord) as [Hlt|Hge].
  - rewrite clear_bit_spec by lia. now rewrite andb_true_r.
  - rewrite Z.land_spec. unfold to_word at 1.
    rewrite Z.mod_pow2_bits_high by lia. now rewrite !andb_false_r.
Qed.

Lemma lor_mask_set (w k : Z) :
  0 <= k < kBitsPerWord -> Z.testbit w k = true ->
  Z.lor w (to_word (Z.shiftl 1 k)) = w.
Proof.
  intros Hk Hb. apply Z.bits_inj'. intros n Hn.
  rewrite set_bit_spec by lia.
  destruct (Z.eqb_spec k n) as [<-|_]; [now rewrite Hb | apply orb_false_r].
Qed.

Lemma land_mask_clear (w k : Z) :
  0 <= k < kBitsPerWord -> is_word w -> Z.testbit w k = false ->
  Z.land w (to_word (Z.lnot (to_word (Z.shiftl 1 k)))) = w.
Proof.
  intros Hk Hw Hb. apply Z.bits_inj'. intros n Hn.
  rewrite clear_bit_bits by lia.
  destruct (Z.ltb_spec n kBitsPerWord) as [Hlt|Hge].
  - destruct (Z.eqb_spec k n) as [<-|_]; [now rewrite Hb|].
    now rewrite !andb_true_r.
  - now rewrite (is_word_high w n Hw Hge).
Qed.

(** Clearing the bit that has just been set gives the word back. *)
Lemma lor_land_mask (w k : Z) :
  0 <= k < kBitsPerWord -> is_word w -> Z.testbit w k = false ->
  Z.land (Z.lor w (to_word (Z.shiftl 1 k)))
         (to_word (Z.lnot (to_word (Z.shiftl 1 k)))) = w.
Proof.
  intros Hk Hw Hb. apply Z.bits_inj'. intros n Hn.
  rewrite clear_bit_bits, set_bit_spec by lia.
  destruct (Z.ltb_spec n kBitsPerWord) as [Hlt|Hge].
  - destruct (Z.eqb_spec k n) as [<-|_]; [now rewrite Hb|].
    now rewrite orb_false_r, !andb_true_r.
  - now rewrite (is_word_high w n Hw Hge), andb_false_r.
Qed.

(** Storing the word that is there changes nothing. *)
Lemma same_vector (this : AtomicBitVector) (k : nat) (w : Z) :
  data_array_ this !! k = Some w ->
  {| size_ := size_ this; data_array_ := <[k := w]> (data_array_ this) |} = this.
Proof.
  intros Hw. destruct this as [n a]. simpl in *. f_equal.
  now apply list_insert_id.
Qed.

Lemma at_true_word (this : AtomicBitVector) (i w : Z) (b : bool) :
  data_array_ this !! Z.to_nat (i / kBitsPerWord) = Some w ->
  at_ this i = Ok b -> Z.testbit w (i mod kBitsPerWord) = b.
Proof. intros Hw. rewrite (at_word _ _ _ Hw). now intros [= ->]. Qed.

Lemma try_lock_held (cas : list bool) (this : AtomicBitVector) (i w : Z) :
  data_array_ this !! Z.to_nat (i / kBitsPerWord) = Some w ->
  Z.testbit w (i mod kBitsPerWord) = true ->
  try_lock cas this i = Ok (false, this).
Proof.
  intros Hw Hb. rewrite (try_lock_word _ _ _ _ Hw).
  rewrite try_lock_loop_held by exact Hb. simpl.
  now rewrite (same_vector _ _ _ Hw).
Qed.

Lemma try_lock_free (cas : list bool) (this : AtomicBitVector) (i w : Z) :
  data_array_ this !! Z.to_nat (i / kBitsPerWord) = Some w ->
  Z.testbit w (i mod kBitsPerWord) = false ->
  In false cas ->
  exists this', set this i = Ok this' /\ try_lock cas this i = Ok (true, this').
Proof.
  intros Hw Hb Hcas. eexists. split; [apply (set_word _ _ _ Hw)|].
  rewrite (try_lock_word _ _ _ _ Hw).
  now rewrite try_lock_loop_free by assumption.
Qed.

Lemma try_lock_spurious (cas : list bool) (this : AtomicBitVector) (i w : Z) :
  data_array_ this !! Z.to_nat (i / kBitsPerWord) = Some w ->
  Z.testbit w (i mod kBitsPerWord) = false ->
  ~ In false cas ->
  try_lock cas this i = Spinning.
Proof.
  intros Hw Hb Hcas. rewrite (try_lock_word _ _ _ _ Hw).
  now rewrite try_lock_loop_spurious by assumption.
Qed.

(** X1. On a vector that satisfies the invariant and for an in-range index
    [i]: when bit [i] is 1, [try_lock(i)] returns false and leaves the vector
    as it is, whatever the exchanges would do; when bit [i] is 0 and one
    exchange does not fail spuriously, it returns true and leaves the vector
    [set(i)] leaves; when bit [i] is 0 and every exchange fails spuriously,
    it goes on trying and never reports the bit as held. *)
Theorem try_lock_cases (this : AtomicBitVector) (i : Z) :
  wf this -> 0 <= i < size this ->
  (at_ this i = Ok true ->
   forall cas, try_lock cas this i = Ok (false, this)) /\
  (at_ this i = Ok false ->
   forall cas, In false cas ->
     exists this', set this i = Ok this' /\
                   try_lock cas this i = Ok (true, this')) /\
  (at_ this i = Ok false ->
   forall cas, ~ In false cas -> try_lock cas this i = Spinning).
Proof.
  intros Hwf Hi. destruct (owning_word this i Hwf Hi) as [w Hw].
  split; [|split]; intros Hb cas; apply (at_true_word _ _ _ _ Hw) in Hb.
  - now apply try_lock_held with w.
  - now apply try_lock_free with w.
  - now apply try_lock_spurious with w.
Qed.

(** X2. Of two calls of [try_lock(i)] in a row on a bit that is 0, the first
    returns true and the second returns false and changes nothing. *)
Theorem try_lock_twice (cas1 : list bool) (this : AtomicBitVector) (i : Z) :
  wf this -> 0 <= i < size this -> at_ this i = Ok false -> In false cas1 ->
  exists this1,
    try_lock cas1 this i = Ok (true, this1) /\
    forall cas2, try_lock cas2 this1 i = Ok (false, this1).
Proof.
  intros Hwf Hi Hb Hcas. destruct (owning_word this i Hwf Hi) as [w Hw].
  apply (at_true_word _ _ _ _ Hw) in Hb.
  destruct (try_lock_free cas1 this i w Hw Hb Hcas) as (this1 & Hset & Hlock).
  exists this1. split; [exact Hlock|]. intros cas2.
  rewrite (set_word _ _ _ Hw) in Hset. injection Hset as <-.
  eapply try_lock_held; [now apply replaced_word with w|].
  rewrite set_bit_spec by apply offset_range.
  now rewrite Z.eqb_refl, orb_true_r.
Qed.

(** X3. [lock(i)] on a bit that is 0 returns after its first [try_lock], as
    soon as one exchange does not fail spuriously, and leaves the vector
    [set(i)] leaves, with bit [i] at 1. *)
Theorem lock_acquires (cas : list bool) (sched : list (list bool))
  (this : AtomicBitVector) (i : Z) :
  wf this -> 0 <= i < size this -> at_ this i = Ok false -> In false cas ->
  exists this',
    lock (cas :: sched) this i = Ok this' /\
    set this i = Ok this' /\ at_ this' i = Ok true.
Proof.
  intros Hwf Hi Hb Hcas. destruct (owning_word this i Hwf Hi) as [w Hw].
  apply (at_true_word _ _ _ _ Hw) in Hb.
  destruct (try_lock_free cas this i w Hw Hb Hcas) as (this' & Hset & Hlock).
  exists this'. simpl. rewrite Hlock. split; [reflexivity|].
  split; [exact Hset|].
  rewrite (set_word _ _ _ Hw) in Hset. injection Hset as <-.
  rewrite (at_word _ i _ (replaced_word this _ w _ Hw)).
  rewrite set_bit_spec by apply offset_range.
  now rewrite Z.eqb_refl, orb_true_r.
Qed.

(** X4. [lock(i)] on a bit that is 1 never returns when no other thread
    clears the bit: however many times it calls [try_lock], it is still
    spinning.  The lock is not reentrant. *)
Theorem lock_held_spins (sched : list (list bool)) (this : AtomicBitVector) (i : Z) :
  wf this -> 0 <= i < size this -> at_ this i = Ok true ->
  lock sched this i = Spinning.
Proof.
  intros Hwf Hi Hb. destruct (owning_word this i Hwf Hi) as [w Hw].
  apply (at_true_word _ _ _ _ Hw) in Hb.
  induction sched as [|cas sched IH]; simpl; [reflexivity|].
  now rewrite (try_lock_held cas this i w Hw Hb).
Qed.

Lemma built_word (this : AtomicBitVector) (k : nat) (w : Z) :
  built this -> data_array_ this !! k = Some w -> is_word w.
Proof.
  intros Hb Hw. destruct (built_invariant this Hb) as [_ Hwords].
  exact (Forall_lookup_1 _ _ _ _ Hwords Hw).
Qed.

Lemma built_owning_word (this : AtomicBitVector) (i : Z) :
  built this -> 0 <= i < size this ->
  exists w, data_array_ this !! Z.to_nat (i / kBitsPerWord) = Some w /\ is_word w.
Proof.
  intros Hb Hi. destruct (built_invariant this Hb) as [Hwf Hwords].
  destruct (owning_word this i Hwf Hi) as [w Hw].
  exists w. split; [exact Hw|]. exact (Forall_lookup_1 _ _ _ _ Hwords Hw).
Qed.

(** X5. On a vector obtained through the interface and for an in-range
    index [i] whose bit is 0, [lock(i)] followed by [unlock(i)] gives back
    the vector as it was, word for word; so does [set(i)] followed by
    [unset(i)]. *)
Theorem lock_unlock_round_trip (cas : list bool) (sched : list (list bool))
  (this : AtomicBitVector) (i : Z) :
  built this -> 0 <= i < size this -> at_ this i = Ok false -> In false cas ->
  exists this1,
    lock (cas :: sched) this i = Ok this1 /\ unlock this1 i = Ok this /\
    set this i = Ok this1 /\ unset this1 i = Ok this.
Proof.
  intros Hbuilt Hi Hb Hcas.
  destruct (built_owning_word this i Hbuilt Hi) as (w & Hw & Hword).
  apply (at_true_word _ _ _ _ Hw) in Hb.
  destruct (try_lock_free cas this i w Hw Hb Hcas) as (this1 & Hset & Hlock).
  exists this1. simpl. rewrite Hlock.
  assert (Hunset : unset this1 i = Ok this).
  { rewrite (set_word _ _ _ Hw) in Hset. injection Hset as <-.
    rewrite (unset_word _ i _ (replaced_word this _ w _ Hw)). simpl.
    rewrite list_insert_insert_eq, lor_land_mask
      by (assumption || apply offset_range).
    now rewrite (same_vector _ _ _ Hw). }
  now repeat split.
Qed.

(** X6. On a vector obtained through the interface and for an in-range
    index [i]: [set(i)] on a bit that is 1 and [unset(i)] on a bit that is 0
    leave the vector as it is, word for word. *)
Theorem set_unset_nothing_to_do (this : AtomicBitVector) (i : Z) :
  built this -> 0 <= i < size this ->
  (at_ this i = Ok true -> set this i = Ok this) /\
  (at_ this i = Ok false -> unset this i = Ok this).
Proof.
  intros Hbuilt Hi.
  destruct (built_owning_word this i Hbuilt Hi) as (w & Hw & Hword).
  split; intros Hb; apply (at_true_word _ _ _ _ Hw) in Hb.
  - rewrite (set_word _ _ _ Hw), lor_mask_set
      by (assumption || apply offset_range).
    now rewrite (same_vector _ _ _ Hw).
  - rewrite (unset_word _ _ _ Hw), land_mask_clear
      by (assumption || apply offset_range).
    now rewrite (same_vector _ _ _ Hw).
Qed.

(** ** Two updates in either order *)

Lemma insert_as_alter (a : list Z) (k : nat) (w : Z) (f : Z -> Z) :
  a !! k = Some w -> <[k := f w]> a = alter f k a.
Proof.
  intros Hw. rewrite list_insert_alter. apply list_alter_ext; [|reflexivity].
  intros x Hx. congruence.
Qed.

Lemma set_alter (this : AtomicBitVector) (i : Z) :
  is_Some (data_array_ this !! Z.to_nat (i / kBitsPerWord)) ->
  set this i =
  Ok {| size_ := size_ this;
        data_array_ :=
          alter (fun w => Z.lor w (to_word (Z.shiftl 1 (i mod kBitsPerWord))))
                (Z.to_nat (i / kBitsPerWord)) (data_array_ this) |}.
Proof.
  intros [w Hw]. rewrite (set_word _ _ _ Hw).
  now rewrite (insert_as_alter _ _ _
    (fun w => Z.lor w (to_word (Z.shiftl 1 (i mod kBitsPerWord)))) Hw).
Qed.

Lemma unset_alter (this : AtomicBitVector) (i : Z) :
  is_Some (data_array_ this !! Z.to_nat (i / kBitsPerWord)) ->
  unset this i =
  Ok {| size_ := size_ this;
        data_array_ :=
          alter (fun w => Z.land w (to_word (Z.lnot (to_word
                   (Z.shiftl 1 (i mod kBitsPerWord))))))
                (Z.to_nat (i / kBitsPerWord)) (data_array_ this) |}.
Proof.
  intros [w Hw]. rewrite (unset_word _ _ _ Hw).
  now rewrite (insert_as_alter _ _ _
    (fun w => Z.land w (to_word (Z.lnot (to_word
                (Z.shiftl 1 (i mod kBitsPerWord)))))) Hw).
Qed.

Lemma alter_commute (a : list Z) (k1 k2 : nat) (f g : Z -> Z) :
  (k1 = k2 -> forall w, g (f w) = f (g w)) ->
  alter g k2 (alter f k1 a) = alter f k1 (alter g k2 a).
Proof.
  intros Hfg. destruct (decide (k1 = k2)) as [->|Hne].
  - rewrite !list_alter_alter_eq. apply list_alter_ext; [|reflexivity].
    intros w _. simpl. now apply Hfg.
  - now apply list_alter_alter_ne.
Qed.

Lemma is_Some_alter (a : list Z) (k1 k2 : nat) (f : Z -> Z) :
  is_Some (a !! k2) -> is_Some (alter f k1 a !! k2).
Proof.
  rewrite !lookup_lt_is_Some. now rewrite length_alter.
Qed.

Lemma lor_land_commute (w k1 k2 : Z) :
  0 <= k1 < kBitsPerWord -> 0 <= k2 < kBitsPerWord -> k1 <> k2 ->
  Z.land (Z.lor w (to_word (Z.shiftl 1 k1)))
         (to_word (Z.lnot (to_word (Z.shiftl 1 k2))))
  = Z.lor (Z.land w (to_word (Z.lnot (to_word (Z.shiftl 1 k2)))))
          (to_word (Z.shiftl 1 k1)).
Proof.
  intros Hk1 Hk2 Hne. apply Z.bits_inj'. intros n Hn.
  rewrite set_bit_spec, !clear_bit_bits, set_bit_spec by lia.
  destruct (Z.eqb_spec k1 n) as [<-|_].
  - destruct (Z.eqb_spec k2 k1) as [->|_]; [lia|].
    destruct (Z.ltb_spec k1 kBitsPerWord); [|lia].
    now rewrite !orb_true_r.
  - now rewrite !orb_false_r.
Qed.

(** X7. On a vector that satisfies the invariant and for in-range indices
    [i <> j], the updates of bit [i] and of bit [j] can be made in either
    order: [set(i)] and [set(j)], [set(i)] and [unset(j)], [unset(i)] and
    [unset(j)] leave the same words, in one word or in two. *)
Theorem updates_commute (this : AtomicBitVector) (i j : Z) :
  wf this -> 0 <= i < size this -> 0 <= j < size this -> i <> j ->
  (exists that, (a ← set this i; set a j) = Ok that /\
                (b ← set this j; set b i) = Ok that) /\
  (exists that, (a ← set this i; unset a j) = Ok that /\
                (b ← unset this j; set b i) = Ok that) /\
  (exists that, (a ← unset this i; unset a j) = Ok that /\
                (b ← unset this j; unset b i) = Ok that).
Proof.
  intros Hwf Hi Hj Hne.
  pose proof (owning_word this i Hwf Hi) as Hwi.
  pose proof (owning_word this j Hwf Hj) as Hwj.
  pose proof (offset_range i) as Hoi. pose proof (offset_range j) as Hoj.
  pose proof kBitsPerWord_pos as HW.
  assert (Hoff : Z.to_nat (i / kBitsPerWord) = Z.to_nat (j / kBitsPerWord) ->
                 i mod kBitsPerWord <> j mod kBitsPerWord).
  { intros Heq. apply same_word_offsets; [exact Hne|].
    assert (0 <= i / kBitsPerWord) by (apply Z.div_pos; lia).
    assert (0 <= j / kBitsPerWord) by (apply Z.div_pos; lia). lia. }
  split; [|split]; eexists.
  - rewrite (set_alter this i Hwi), (set_alter this j Hwj). simpl.
    rewrite set_alter by (now apply is_Some_alter).
    rewrite set_alter by (now apply is_Some_alter). simpl.
    split; [reflexivity|]. f_equal. f_equal. apply alter_commute.
    intros _ w. now rewrite <- !Z.lor_assoc, (Z.lor_comm (to_word _)).
  - rewrite (set_alter this i Hwi), (unset_alter this j Hwj). simpl.
    rewrite unset_alter by (now apply is_Some_alter).
    rewrite set_alter by (now apply is_Some_alter). simpl.
    split; [reflexivity|]. f_equal. f_equal. symmetry. apply alter_commute.
    intros Heq w. apply lor_land_commute; [lia | lia | now apply Hoff].
  - rewrite (unset_alter this i Hwi), (unset_alter this j Hwj). simpl.
    rewrite unset_alter by (now apply is_Some_alter).
    rewrite unset_alter by (now apply is_Some_alter). simpl.
    split; [reflexivity|]. f_equal. f_equal. apply alter_commute.
    intros _ w. now rewrite <- !Z.land_assoc, (Z.land_comm (to_word _)).
Qed.

(** ** Where the operations stop *)

Lemma word_index_storage (a : list Z) (i : Z) :
  0 <= i ->
  (i < Z.of_nat (length a) * kBitsPerWord ->
   is_Some (a !! Z.to_nat (i / kBitsPerWord))) /\
  (Z.of_nat (length a) * kBitsPerWord <= i ->
   a !! Z.to_nat (i / kBitsPerWord) = None).
Proof.
  intros Hi. pose proof kBitsPerWord_pos as HW.
  assert (0 <= i / kBitsPerWord) by (apply Z.div_pos; lia).
  split; intros Hb.
  - apply lookup_lt_is_Some_2.
    assert (i / kBitsPerWord < Z.of_nat (length a))
      by (apply Z.div_lt_upper_bound; lia). lia.
  - apply lookup_ge_None_2.
    assert (Z.of_nat (length a) <= i / kBitsPerWord)
      by (apply Z.div_le_lower_bound; lia). lia.
Qed.

(** X8. The operations compare nothing with [size()]: an index from [size()]
    up to the end of the last stored word is served like any other.
    [set(i)] there returns and leaves the size as it is, [at(i)] then reads
    true, and [unset(i)] makes it false again. *)
Theorem beyond_size_within_storage (this : AtomicBitVector) (i : Z) :
  0 <= size this <= i ->
  i < Z.of_nat (length (data_array_ this)) * kBitsPerWord ->
  exists this1 this2,
    set this i = Ok this1 /\ size this1 = size this /\ at_ this1 i = Ok true /\
    unset this1 i = Ok this2 /\ size this2 = size this /\ at_ this2 i = Ok false.
Proof.
  intros Hi Hb.
  destruct (proj1 (word_index_storage (data_array_ this) i ltac:(lia)) Hb)
    as [w Hw].
  pose proof (offset_range i) as Hoi.
  pose proof (replaced_word this _ w
    (Z.lor w (to_word (Z.shiftl 1 (i mod kBitsPerWord)))) Hw) as Hw1.
  eexists _, _. split; [apply (set_word _ _ _ Hw)|].
  split; [reflexivity|]. split; [|split; [|split]].
  - rewrite (at_word _ _ _ Hw1), set_bit_spec by lia.
    now rewrite Z.eqb_refl, orb_true_r.
  - apply (unset_word _ _ _ Hw1).
  - reflexivity.
  - erewrite at_replaced by (exact Hw1 || lia).
    rewrite Z.eqb_refl, clear_bit_spec by lia.
    now rewrite Z.eqb_refl, andb_false_r.
Qed.

(** X9. Past the last stored word every operation leaves the storage:
    [at], [set], [unset], [unlock], [try_lock] and [lock] index
    [data_array_] out of bounds, whatever [size()] says. *)
Theorem beyond_storage (this : AtomicBitVector) (i : Z) :
  0 <= i -> Z.of_nat (length (data_array_ this)) * kBitsPerWord <= i ->
  at_ this i = OutOfBounds /\
  set this i = OutOfBounds /\
  unset this i = OutOfBounds /\
  unlock this i = OutOfBounds /\
  (forall cas, try_lock cas this i = OutOfBounds) /\
  (forall cas sched, lock (cas :: sched) this i = OutOfBounds).
Proof.
  intros Hi Hb.
  pose proof (proj2 (word_index_storage (data_array_ this) i Hi) Hb) as Hw.
  assert (Htry : forall cas, try_lock cas this i = OutOfBounds).
  { intros cas. unfold try_lock, word_at. now rewrite Hw. }
  repeat split.
  - unfold at_, word_at. now rewrite Hw.
  - unfold set, word_rmw, word_at. now rewrite Hw.
  - unfold unset, word_rmw, word_at. now rewrite Hw.
  - unfold unlock, unset, word_rmw, word_at. now rewrite Hw.
  - exact Htry.
  - intros cas sched. simpl. now rewrite Htry.
Qed.

(** ** Sizes that fit and sizes that do not *)

(** X10. For a size [n] with [n + kBitsPerWord - 1 <= SIZE_MAX],
    [AtomicBitVector(n)] has size [n], holds ceil(n / kBitsPerWord) words and
    reads false at every in-range bit; [reset(n)] leaves the same vector,
    whatever the vector held before. *)
Theorem sizes_that_fit (this : AtomicBitVector) (n : Z) :
  fits n ->
  size (AtomicBitVector_size n) = n /\
  Z.of_nat (length (data_array_ (AtomicBitVector_size n)))
  = ceil_div n kBitsPerWord /\
  (forall i, 0 <= i < n -> at_ (AtomicBitVector_size n) i = Ok false) /\
  reset this n = AtomicBitVector_size n.
Proof.
  intros Hn.
  destruct (AtomicBitVector_size_spec n Hn) as (Hsize & Hlen & _ & Hbits).
  now repeat split.
Qed.

(** X11. For a larger size [n <= SIZE_MAX] the sum wraps around:
    [AtomicBitVector(n)] and [reset(n)] give a vector of size [n] without any
    word, on which every access leaves the storage. *)
Theorem sizes_that_wrap (this : AtomicBitVector) (n : Z) :
  SIZE_MAX - (kBitsPerWord - 1) < n <= SIZE_MAX ->
  AtomicBitVector_size n = {| size_ := n; data_array_ := [] |} /\
  reset this n = {| size_ := n; data_array_ := [] |} /\
  forall i, at_ (AtomicBitVector_size n) i = OutOfBounds /\
            set (AtomicBitVector_size n) i = OutOfBounds.
Proof.
  intros Hn.
  assert (Hv : AtomicBitVector_size n = {| size_ := n; data_array_ := [] |}).
  { unfold AtomicBitVector_size. now rewrite word_count_wrapped. }
  split; [exact Hv|]. split; [exact Hv|]. rewrite Hv.
  intros i. split; reflexivity.
Qed.


(** X13. The constructor from a range stores words that are values of
    [word_type] as they are, and the vector satisfies the invariant. *)
Theorem AtomicBitVector_words_stored (words : list Z) :
  Z.of_nat (length words) * kBitsPerWord <= PTRDIFF_MAX ->
  Forall is_word words ->
  data_array_ (AtomicBitVector_words words) = words /\
  wf (AtomicBitVector_words words).
Proof.
  intros Hrep Hwords. split; [|now apply AtomicBitVector_words_wf].
  simpl. rewrite <- (list_fmap_id words) at 2.
  apply Forall_fmap_ext_1.
  eapply Forall_impl; [exact Hwords|].
  intros w Hw. now apply Z.mod_small.
Qed.

(** ** Steps of a thread *)

Lemma after_load_cases (i : Z) (from_lock : bool) (old_value : Z)
  (rest : list call) (results : list bool) :
  (Z.testbit old_value (i mod kBitsPerWord) = false /\
   after_load i from_lock old_value rest results
   = {| doing := Some (i, from_lock, old_value);
        todo := rest; returned := results |}) \/
  (Z.testbit old_value (i mod kBitsPerWord) = true /\
   after_load i from_lock old_value rest results
   = if from_lock then idle (call_lock i :: rest) results
     else idle rest (false :: results)).
Proof.
  unfold after_load. rewrite test_shift by apply offset_range.
  destruct (Z.testbit old_value (i mod kBitsPerWord)); simpl; auto.
Qed.

(** The exchange of a thread in the loop of [try_lock(j)]: it stores
    [old_value] with bit [j] set when the word is still [old_value], and
    otherwise fails, leaving the vector as it is. *)
Lemma exchange_step (spurious : bool) (t : thread) (this : AtomicBitVector)
  (j : Z) (from_lock : bool) (old_value w : Z) :
  doing t = Some (j, from_lock, old_value) ->
  data_array_ this !! Z.to_nat (j / kBitsPerWord) = Some w ->
  (spurious = false /\ w = old_value /\
   thread_step spurious t this
   = Ok (idle (todo t) (if from_lock then returned t else true :: returned t),
         {| size_ := size_ this;
            data_array_ :=
              <[Z.to_nat (j / kBitsPerWord) :=
                  Z.lor w (to_word (Z.shiftl 1 (j mod kBitsPerWord)))]>
                (data_array_ this) |})) \/
  ((spurious = true \/ w <> old_value) /\
   thread_step spurious t this
   = Ok (after_load j from_lock w (todo t) (returned t), this)).
Proof.
  intros Hdoing Hw. unfold thread_step. rewrite Hdoing.
  rewrite (word_at_Some _ _ _ Hw). simpl. unfold compare_exchange_weak.
  destruct spurious; simpl.
  - right. split; [now left|]. now rewrite (same_vector _ _ _ Hw).
  - destruct (Z.eqb_spec w old_value) as [->|Hne].
    + left. now repeat split.
    + right. split; [now right|]. now rewrite (same_vector _ _ _ Hw).
Qed.

Lemma set_bit_frame (this : AtomicBitVector) (i j w : Z) :
  0 <= i -> 0 <= j -> i <> j ->
  data_array_ this !! Z.to_nat (j / kBitsPerWord) = Some w ->
  at_ {| size_ := size_ this;
         data_array_ :=
           <[Z.to_nat (j / kBitsPerWord) :=
               Z.lor w (to_word (Z.shiftl 1 (j mod kBitsPerWord)))]>
             (data_array_ this) |} i
  = at_ this i.
Proof.
  intros Hi Hj Hne Hw. apply (at_replaced_frame this j i w); try assumption.
  intros Heq. rewrite set_bit_spec by apply offset_range.
  apply same_word_offsets in Heq; [|congruence].
  apply Z.eqb_neq in Heq. rewrite Heq. apply orb_false_r.
Qed.

Lemma clear_bit_frame (this : AtomicBitVector) (i j w : Z) :
  0 <= i -> 0 <= j -> i <> j ->
  data_array_ this !! Z.to_nat (j / kBitsPerWord) = Some w ->
  at_ {| size_ := size_ this;
         data_array_ :=
           <[Z.to_nat (j / kBitsPerWord) :=
               Z.land w (to_word (Z.lnot (to_word
                 (Z.shiftl 1 (j mod kBitsPerWord)))))]>
             (data_array_ this) |} i
  = at_ this i.
Proof.
  intros Hi Hj Hne Hw. apply (at_replaced_frame this j i w); try assumption.
  intros Heq. rewrite clear_bit_spec by apply offset_range.
  apply same_word_offsets in Heq; [|congruence].
  apply Z.eqb_neq in Heq. rewrite Heq. apply andb_true_r.
Qed.

Lemma set_bit_at (this : AtomicBitVector) (j w : Z) :
  0 <= j ->
  data_array_ this !! Z.to_nat (j / kBitsPerWord) = Some w ->
  at_ {| size_ := size_ this;
         data_array_ :=
           <[Z.to_nat (j / kBitsPerWord) :=
               Z.lor w (to_word (Z.shiftl 1 (j mod kBitsPerWord)))]>
             (data_array_ this) |} j
  = Ok true.
Proof.
  intros Hj Hw. rewrite (at_replaced this j j w) by assumption.
  rewrite Z.eqb_refl, set_bit_spec by apply offset_range.
  now rewrite Z.eqb_refl, orb_true_r.
Qed.

Lemma clear_bit_at (this : AtomicBitVector) (j w : Z) :
  0 <= j ->
  data_array_ this !! Z.to_nat (j / kBitsPerWord) = Some w ->
  at_ {| size_ := size_ this;
         data_array_ :=
           <[Z.to_nat (j / kBitsPerWord) :=
               Z.land w (to_word (Z.lnot (to_word
                 (Z.shiftl 1 (j mod kBitsPerWord)))))]>
             (data_array_ this) |} j
  = Ok false.
Proof.
  intros Hj Hw. rewrite (at_replaced this j j w) by assumption.
  rewrite Z.eqb_refl, clear_bit_spec by apply offset_range.
  now rewrite Z.eqb_refl, andb_false_r.
Qed.

(** ** Bit [i] as a lock between threads *)

Lemma prog_of_other (n i : Z) (h : bool) (rest : list call) :
  Forall (other n i) rest -> prog n i h rest.
Proof.
  induction 1 as [|c rest Hc _ IH]; [apply prog_nil | now apply prog_other].
Qed.

Lemma locker_after_load (n i j : Z) (h from_lock : bool) (w : Z)
  (rest : list call) (results : list bool) :
  0 <= j < n -> j <> i -> prog n i h rest ->
  locker n i h (after_load j from_lock w rest results).
Proof.
  intros Hj Hne Hprog.
  destruct (after_load_cases j from_lock w rest results) as [[_ ->]|[_ ->]].
  - now apply locker_other.
  - destruct from_lock; apply locker_idle; [|exact Hprog].
    apply prog_other; [|exact Hprog]. now split.
Qed.

(** A step of a locker: it stays a locker, and either bit [i] and what the
    thread holds are as before, or the thread takes the lock, bit [i] going
    from 0 to 1, or it gives the lock back. *)
Lemma locker_step (n i : Z) (h spurious : bool) (t : thread)
  (this : AtomicBitVector) :
  0 <= i < n -> size_ this = n -> wf this -> locker n i h t ->
  exists h' t' this',
    thread_step spurious t this = Ok (t', this') /\
    size_ this' = n /\ wf this' /\ locker n i h' t' /\
    ((h' = h /\ at_ this' i = at_ this i) \/
     (h = false /\ h' = true /\ at_ this i = Ok false /\ at_ this' i = Ok true) \/
     (h = true /\ h' = false)).
Proof.
  intros Hi Hsize Hwf Hl. subst n.
  assert (Hword : forall j, 0 <= j < size_ this ->
            exists w, data_array_ this !! Z.to_nat (j / kBitsPerWord) = Some w).
  { intros j Hj. now apply owning_word. }
  destruct Hl as [h rest results Hprog
                 | h j from_lock old_value rest results Hj Hne Hprog
                 | old_value rest results Hold Hprog
                 | old_value rest results Hold Hrest].
  - (* between two calls *)
    inversion Hprog as [h0 | h0 c rest0 [Hj Hne] Hprog' | rest0 Hprog'
                       | rest0 Hrest | rest0 Hprog' | rest0 Hprog']; subst.
    + exists h, (idle [] results), this.
      repeat split; try assumption. now apply locker_idle. now left.
    + destruct c as [j|j|j|j|j]; simpl in Hj, Hne;
        destruct (Hword j Hj) as [w Hw]; unfold thread_step; simpl.
      * rewrite (set_word _ _ _ Hw). simpl. eexists h, _, _.
        split; [reflexivity|]. split; [reflexivity|].
        split; [now apply wf_same_shape|]. split; [now apply locker_idle|].
        left. split; [reflexivity|]. apply set_bit_frame; (assumption || lia).
      * rewrite (unset_word _ _ _ Hw). simpl. eexists h, _, _.
        split; [reflexivity|]. split; [reflexivity|].
        split; [now apply wf_same_shape|]. split; [now apply locker_idle|].
        left. split; [reflexivity|]. apply clear_bit_frame; (assumption || lia).
      * rewrite (word_at_Some _ _ _ Hw). simpl. eexists h, _, _.
        split; [reflexivity|]. repeat split; try assumption.
        now apply locker_after_load. now left.
      * rewrite (word_at_Some _ _ _ Hw). simpl. eexists h, _, _.
        split; [reflexivity|]. repeat split; try assumption.
        now apply locker_after_load. now left.
      * unfold unlock. rewrite (unset_word _ _ _ Hw). simpl. eexists h, _, _.
        split; [reflexivity|]. split; [reflexivity|].
        split; [now apply wf_same_shape|]. split; [now apply locker_idle|].
        left. split; [reflexivity|]. apply clear_bit_frame; (assumption || lia).
    + (* lock(i) *)
      destruct (Hword i Hi) as [w Hw]. unfold thread_step. simpl.
      rewrite (word_at_Some _ _ _ Hw). simpl. eexists false, _, _.
      split; [reflexivity|]. repeat split; try assumption; [|now left].
      unfold load.
      destruct (after_load_cases i true w rest0 results) as [[Hb ->]|[Hb ->]].
      * now apply locker_locking.
      * now apply locker_idle, prog_lock.
    + (* try_lock(i) *)
      destruct (Hword i Hi) as [w Hw]. unfold thread_step. simpl.
      rewrite (word_at_Some _ _ _ Hw). simpl. eexists false, _, _.
      split; [reflexivity|]. repeat split; try assumption; [|now left].
      unfold load.
      destruct (after_load_cases i false w rest0 results) as [[Hb ->]|[Hb ->]].
      * now apply locker_trying.
      * now apply locker_idle, prog_of_other.
    + (* unlock(i) *)
      destruct (Hword i Hi) as [w Hw]. unfold thread_step, unlock. simpl.
      rewrite (unset_word _ _ _ Hw). simpl. eexists false, _, _.
      split; [reflexivity|]. split; [reflexivity|].
      split; [now apply wf_same_shape|]. split; [now apply locker_idle|].
      right. right. now split.
    + (* unset(i) *)
      destruct (Hword i Hi) as [w Hw]. unfold thread_step. simpl.
      rewrite (unset_word _ _ _ Hw). simpl. eexists false, _, _.
      split; [reflexivity|]. split; [reflexivity|].
      split; [now apply wf_same_shape|]. split; [now apply locker_idle|].
      right. right. now split.
  - (* in try_lock(j) *)
    destruct (Hword j Hj) as [w Hw].
    destruct (exchange_step spurious
      {| doing := Some (j, from_lock, old_value); todo := rest;
         returned := results |} this j from_lock old_value w eq_refl Hw)
      as [(_ & _ & ->)|(_ & ->)]; simpl.
    + eexists h, _, _. split; [reflexivity|]. split; [reflexivity|].
      split; [now apply wf_same_shape|]. split; [now apply locker_idle|].
      left. split; [reflexivity|]. apply set_bit_frame; (assumption || lia).
    + eexists h, _, _. split; [reflexivity|]. repeat split; try assumption.
      now apply locker_after_load. now left.
  - (* in try_lock(i), called by lock(i) *)
    destruct (Hword i Hi) as [w Hw].
    destruct (exchange_step spurious
      {| doing := Some (i, true, old_value); todo := rest;
         returned := results |} this i true old_value w eq_refl Hw)
      as [(_ & -> & ->)|(_ & ->)]; simpl.
    + eexists true, _, _. split; [reflexivity|]. split; [reflexivity|].
      split; [now apply wf_same_shape|]. split; [now apply locker_idle|].
      right. left. repeat split.
      * rewrite (at_word _ _ _ Hw). now rewrite Hold.
      * apply set_bit_at; (assumption || lia).
    + eexists false, _, _. split; [reflexivity|].
      repeat split; try assumption; [|now left].
      destruct (after_load_cases i true w rest results) as [[Hb ->]|[Hb ->]].
      * now apply locker_locking.
      * now apply locker_idle, prog_lock.
  - (* in try_lock(i), called by the thread *)
    destruct (Hword i Hi) as [w Hw].
    destruct (exchange_step spurious
      {| doing := Some (i, false, old_value); todo := rest;
         returned := results |} this i false old_value w eq_refl Hw)
      as [(_ & -> & ->)|(_ & ->)]; simpl.
    + eexists true, _, _. split; [reflexivity|]. split; [reflexivity|].
      split; [now apply wf_same_shape|].
      split; [now apply locker_idle, prog_of_other|].
      right. left. repeat split.
      * rewrite (at_word _ _ _ Hw). now rewrite Hold.
      * apply set_bit_at; (assumption || lia).
    + eexists false, _, _. split; [reflexivity|].
      repeat split; try assumption; [|now left].
      destruct (after_load_cases i false w rest results) as [[Hb ->]|[Hb ->]].
      * now apply locker_trying.
      * now apply locker_idle, prog_of_other.
Qed.

Lemma mutex_step (n i : Z) (hs : list bool) (ts : list thread)
  (this : AtomicBitVector) (a : nat) (t : thread) (spurious : bool) :
  0 <= i < n -> mutex n i hs ts this -> ts !! a = Some t ->
  exists hs' t' this',
    thread_step spurious t this = Ok (t', this') /\
    mutex n i hs' (<[a := t']> ts) this'.
Proof.
  intros Hi (Hsize & Hwf & Hls & Huniq & Hbit) Ht.
  destruct (Forall2_lookup_r _ _ _ _ _ Hls Ht) as (h & Hh & Hl).
  destruct (locker_step n i h spurious t this Hi Hsize Hwf Hl)
    as (h' & t' & this' & Hstep & Hsize' & Hwf' & Hl' & Heffect).
  exists (<[a := h']> hs), t', this'. split; [exact Hstep|].
  split; [exact Hsize'|]. split; [exact Hwf'|].
  split; [now apply Forall2_insert|].
  destruct Heffect as [[-> Hat]|[(-> & -> & Hfree & Hset)|[-> ->]]].
  - rewrite (list_insert_id _ _ _ Hh), Hat. now split.
  - assert (Hnone : forall b, hs !! b <> Some true).
    { intros b Hb. specialize (Hbit b Hb). congruence. }
    split.
    + intros b c Hb Hc.
      apply list_lookup_insert_Some in Hb as [(<- & _ & _)|[_ Hb]];
        [|now apply Hnone in Hb].
      apply list_lookup_insert_Some in Hc as [(<- & _ & _)|[_ Hc]];
        [reflexivity | now apply Hnone in Hc].
    + intros _ _. exact Hset.
  - assert (Hnone : forall b, <[a := false]> hs !! b <> Some true).
    { intros b Hb.
      apply list_lookup_insert_Some in Hb as [(_ & Hb & _)|[Hne Hb]];
        [discriminate|].
      apply Hne. now apply Huniq. }
    split.
    + intros b c Hb _. now apply Hnone in Hb.
    + intros b Hb. now apply Hnone in Hb.
Qed.

Lemma run_mutex (n i : Z) (sched : list (nat * bool)) :
  0 <= i < n ->
  forall (hs : list bool) (ts : list thread) (this : AtomicBitVector),
    mutex n i hs ts this ->
    exists hs' ts' this',
      run sched ts this = Ok (ts', this') /\ mutex n i hs' ts' this'.
Proof.
  intros Hi. induction sched as [|[a spurious] sched IH]; intros hs ts this Hm.
  - now exists hs, ts, this.
  - simpl. destruct (ts !! a) as [t|] eqn:Ht; [|now apply IH with hs].
    destruct (mutex_step n i hs ts this a t spurious Hi Hm Ht)
      as (hs' & t' & this' & -> & Hm').
    now apply IH with hs'.
Qed.

Lemma prog_before_unlock (n i : Z) (h : bool) (body rest : list call) :
  Forall (other n i) body ->
  prog n i h (body ++ call_unlock i :: rest) -> h = true.
Proof.
  induction 1 as [|c body [_ Hc] _ IH]; simpl; intros Hprog.
  - inversion Hprog as [| ? ? ? [_ Hne] | | | |]; subst;
      [now simpl in Hne | reflexivity].
  - inversion Hprog; subst; try (now simpl in Hc). now apply IH.
Qed.

Lemma locker_critical (n i : Z) (h : bool) (t : thread) :
  locker n i h t -> in_critical_section n i t -> h = true.
Proof.
  intros Hl (Hdoing & body & rest & Hbody & Htodo).
  destruct Hl as [h p results Hprog | h j fl old p results _ _ Hprog
                 | old p results _ _ | old p results _ _]; simpl in *.
  - subst p. now apply prog_before_unlock in Hprog.
  - subst p. now apply prog_before_unlock in Hprog.
  - now destruct (Hdoing true old).
  - now destruct (Hdoing false old).
Qed.

(** X15. Mutual exclusion.  Threads use bit [i] as a lock: each calls
    [lock(i)] only when it does not hold the lock, [unlock(i)] or
    [unset(i)] only when it does, never [set(i)], and may call anything on
    the other in-range bits.  Then, in whatever order their atomic accesses
    are made and however often the exchanges fail spuriously, no access
    leaves the storage, at most one thread is between a [lock(i)] and its
    [unlock(i)], and bit [i] is 1 while one is. *)
Theorem mutual_exclusion (sched : list (nat * bool)) (ts : list thread)
  (this : AtomicBitVector) (i : Z) :
  wf this -> 0 <= i < size this ->
  Forall (locker (size this) i false) ts ->
  exists ts' this',
    run sched ts this = Ok (ts', this') /\
    (forall a b ta tb,
       ts' !! a = Some ta -> ts' !! b = Some tb ->
       in_critical_section (size this) i ta ->
       in_critical_section (size this) i tb -> a = b) /\
    (forall a ta,
       ts' !! a = Some ta -> in_critical_section (size this) i ta ->
       at_ this' i = Ok true).
Proof.
  intros Hwf Hi Hts.
  assert (Hm : mutex (size this) i (replicate (length ts) false) ts this).
  { split; [reflexivity|]. split; [exact Hwf|]. split; [|split].
    - now apply Forall2_replicate_l.
    - intros a b Ha _. now apply lookup_replicate in Ha as [[=] _].
    - intros a Ha. now apply lookup_replicate in Ha as [[=] _]. }
  destruct (run_mutex (size this) i sched Hi _ _ _ Hm)
    as (hs' & ts' & this' & Hrun & _ & _ & Hls & Huniq & Hbit).
  exists ts', this'. split; [exact Hrun|].
  assert (Hholds : forall a ta, ts' !! a = Some ta ->
            in_critical_section (size this) i ta -> hs' !! a = Some true).
  { intros a ta Ha Hcs.
    destruct (Forall2_lookup_r _ _ _ _ _ Hls Ha) as (h & Hh & Hl).
    now rewrite (locker_critical _ _ _ _ Hl Hcs) in Hh. }
  split.
  - intros a b ta tb Ha Hb Hca Hcb. apply Huniq; eauto.
  - intros a ta Ha Hca. apply (Hbit a). eauto.
Qed.

(** ** Threads racing for bit [i] *)

Lemma racer_step (i : Z) (spurious : bool) (t : thread) (this : AtomicBitVector) :
  wf this -> 0 <= i < size_ this -> racer i t ->
  exists t' this',
    thread_step spurious t this = Ok (t', this') /\
    size_ this' = size_ this /\ wf this' /\ racer i t' /\
    ((t' = t /\ this' = this) \/
     (returned t = [] /\ returned t' = [] /\ this' = this) \/
     (returned t = [] /\ returned t' = [false] /\ this' = this /\
      at_ this i = Ok true) \/
     (returned t = [] /\ returned t' = [true] /\
      at_ this i = Ok false /\ at_ this' i = Ok true)).
Proof.
  intros Hwf Hi Hr. destruct (owning_word this i Hwf Hi) as [w Hw].
  assert (Hload : exists t',
            after_load i false w [] [] = t' /\ racer i t' /\
            ((returned t' = []) \/
             (returned t' = [false] /\ at_ this i = Ok true))).
  { eexists. split; [reflexivity|].
    destruct (after_load_cases i false w [] []) as [[Hb ->]|[Hb ->]].
    - split; [now apply racer_trying | now left].
    - split; [apply racer_returned|]. right. split; [reflexivity|].
      now rewrite (at_word _ _ _ Hw), Hb. }
  destruct Hload as (t1 & Ht1 & Hr1 & Hret1).
  destruct Hr as [|old_value Hold|r].
  - unfold thread_step. simpl. rewrite (word_at_Some _ _ _ Hw). simpl.
    unfold load. rewrite Ht1. exists t1, this.
    split; [reflexivity|]. repeat split; try assumption.
    right. destruct Hret1 as [H1|[H1 H2]]; [left | right; left]; now repeat split.
  - destruct (exchange_step spurious
      {| doing := Some (i, false, old_value); todo := []; returned := [] |}
      this i false old_value w eq_refl Hw) as [(_ & -> & ->)|(_ & ->)]; simpl.
    + eexists _, _. split; [reflexivity|]. split; [reflexivity|].
      split; [now apply wf_same_shape|]. split; [apply racer_returned|].
      right. right. right. repeat split.
      * now rewrite (at_word _ _ _ Hw), Hold.
      * apply set_bit_at; (assumption || lia).
    + rewrite Ht1. exists t1, this.
      split; [reflexivity|]. repeat split; try assumption.
      right. destruct Hret1 as [H1|[H1 H2]]; [left | right; left]; now repeat split.
  - exists (idle [] [r]), this. split; [reflexivity|].
    repeat split; try assumption. apply racer_returned. now left.
Qed.

Lemma lookup_insert_cases (ts : list thread) (a b : nat) (t' tb : thread) :
  <[a := t']> ts !! b = Some tb ->
  (b = a /\ tb = t') \/ (b <> a /\ ts !! b = Some tb).
Proof.
  intros H. apply list_lookup_insert_Some in H as [(-> & -> & _)|[Hne H]].
  - now left.
  - right. split; [congruence | exact H].
Qed.

Lemma race_step (n i : Z) (b0 spurious : bool) (ts : list thread)
  (this : AtomicBitVector) (a : nat) (t : thread) :
  0 <= i < n -> race n i b0 ts this -> ts !! a = Some t ->
  exists t' this',
    thread_step spurious t this = Ok (t', this') /\
    race n i b0 (<[a := t']> ts) this'.
Proof.
  intros Hi (Hsize & Hwf & Hrs & Huniq & Hwon & Hlost & Hheld & Hbit) Ht.
  subst n.
  pose proof (Forall_lookup_1 _ _ _ _ Hrs Ht) as Hr.
  destruct (racer_step i spurious t this Hwf Hi Hr)
    as (t' & this' & Hstep & Hsize' & Hwf' & Hr' & Heffect).
  exists t', this'. split; [exact Hstep|].
  assert (Ha : (a < length ts)%nat) by now apply lookup_lt_Some with t.
  split; [exact Hsize'|]. split; [exact Hwf'|].
  split; [now apply Forall_insert|].
  destruct Heffect as [[-> ->]|[(Hnil & Hnil' & ->)
                      |[(Hnil & Hfalse & -> & Hset)
                       |(Hnil & Htrue & Hfree & Hset)]]].
  - rewrite (list_insert_id _ _ _ Ht).
    exact (conj Huniq (conj Hwon (conj Hlost (conj Hheld Hbit)))).
  - split; [|split; [|split; [|split]]].
    + intros b c tb tc Hb Hc Hwb Hwc.
      apply lookup_insert_cases in Hb as [[-> ->]|[_ Hb]]; [congruence|].
      apply lookup_insert_cases in Hc as [[-> ->]|[_ Hc]]; [congruence|].
      now apply (Huniq b c tb tc).
    + intros b tb Hb Hwb.
      apply lookup_insert_cases in Hb as [[-> ->]|[_ Hb]]; [congruence|].
      now apply (Hwon b tb).
    + intros b tb Hb Hlb.
      apply lookup_insert_cases in Hb as [[-> ->]|[_ Hb]]; [congruence|].
      now apply (Hlost b tb).
    + exact Hheld.
    + intros Hone. destruct (Hbit Hone) as [Hb0|(b & tb & Hb & Hwb)];
        [now left|]. right. exists b, tb. split; [|exact Hwb].
      rewrite list_lookup_insert_ne; [exact Hb|]. intros ->. congruence.
  - split; [|split; [|split; [|split]]].
    + intros b c tb tc Hb Hc Hwb Hwc.
      apply lookup_insert_cases in Hb as [[-> ->]|[_ Hb]]; [congruence|].
      apply lookup_insert_cases in Hc as [[-> ->]|[_ Hc]]; [congruence|].
      now apply (Huniq b c tb tc).
    + intros b tb Hb Hwb.
      apply lookup_insert_cases in Hb as [[-> ->]|[_ Hb]]; [congruence|].
      now apply (Hwon b tb).
    + intros _ _ _ _. exact Hset.
    + exact Hheld.
    + intros Hone. destruct (Hbit Hone) as [Hb0|(b & tb & Hb & Hwb)];
        [now left|]. right. exists b, tb. split; [|exact Hwb].
      rewrite list_lookup_insert_ne; [exact Hb|]. intros ->. congruence.
  - assert (Hb0 : b0 = false).
    { destruct b0; [|reflexivity]. specialize (Hheld eq_refl). congruence. }
    assert (Hnone : forall b tb, ts !! b = Some tb -> returned tb <> [true]).
    { intros b tb Hb Hwb. destruct (Hwon b tb Hb Hwb). congruence. }
    split; [|split; [|split; [|split]]].
    + intros b c tb tc Hb Hc Hwb Hwc.
      apply lookup_insert_cases in Hb as [[-> ->]|[_ Hb]];
        [|now apply Hnone in Hb].
      apply lookup_insert_cases in Hc as [[-> ->]|[_ Hc]];
        [reflexivity | now apply Hnone in Hc].
    + intros _ _ _ _. split; [exact Hb0 | exact Hset].
    + intros _ _ _ _. exact Hset.
    + intros _. exact Hset.
    + intros _. right. exists a, t'. split; [|exact Htrue].
      now apply list_lookup_insert_eq.
Qed.

Lemma run_race (n i : Z) (b0 : bool) (sched : list (nat * bool)) :
  0 <= i < n ->
  forall (ts : list thread) (this : AtomicBitVector),
    race n i b0 ts this ->
    exists ts' this', run sched ts this = Ok (ts', this') /\ race n i b0 ts' this'.
Proof.
  intros Hi. induction sched as [|[a spurious] sched IH]; intros ts this Hr.
  - now exists ts, this.
  - simpl. destruct (ts !! a) as [t|] eqn:Ht; [|now apply IH].
    destruct (race_step n i b0 spurious ts this a t Hi Hr Ht)
      as (t' & this' & -> & Hr').
    now apply IH.
Qed.

(** X16. Threads that each call [try_lock(i)] once on an in-range bit: in
    whatever order their atomic accesses are made and however often the
    exchanges fail spuriously, at most one of the calls returns true; none
    does when the bit was 1 at the start; and when the bit was 0 at the
    start, as soon as one call has returned, one call has returned true. *)
Theorem try_lock_race (sched : list (nat * bool)) (ts : list thread)
  (this : AtomicBitVector) (i : Z) (b0 : bool) :
  wf this -> 0 <= i < size this -> at_ this i = Ok b0 ->
  Forall (fun t => t = idle [call_try_lock i] []) ts ->
  exists ts' this',
    run sched ts this = Ok (ts', this') /\
    (forall a b ta tb,
       ts' !! a = Some ta -> ts' !! b = Some tb ->
       returned ta = [true] -> returned tb = [true] -> a = b) /\
    (b0 = true ->
     forall a ta, ts' !! a = Some ta -> returned ta <> [true]) /\
    (b0 = false ->
     forall a ta, ts' !! a = Some ta -> returned ta <> [] ->
       exists b tb, ts' !! b = Some tb /\ returned tb = [true]).
Proof.
  intros Hwf Hi Hb0 Hts.
  assert (Hnil : forall a ta, ts !! a = Some ta -> returned ta = []).
  { intros a ta Ha. now rewrite (Forall_lookup_1 _ _ _ _ Hts Ha). }
  assert (Hr : race (size this) i b0 ts this).
  { split; [reflexivity|]. split; [exact Hwf|].
    split; [|split; [|split; [|split; [|split]]]].
    - eapply Forall_impl; [exact Hts|]. intros t ->. apply racer_called.
    - intros a b ta tb Ha _ Hwa. apply Hnil in Ha. congruence.
    - intros a ta Ha Hwa. apply Hnil in Ha. congruence.
    - intros a ta Ha Hla. apply Hnil in Ha. congruence.
    - intros ->. exact Hb0.
    - intros Hone. left. congruence. }
  destruct (run_race (size this) i b0 sched Hi ts this Hr)
    as (ts' & this' & Hrun & _ & _ & Hrs & Huniq & Hwon & Hlost & _ & Hbit).
  exists ts', this'. split; [exact Hrun|]. split; [exact Huniq|]. split.
  - intros -> a ta Ha Hwa. now destruct (Hwon a ta Ha Hwa).
  - intros -> a ta Ha Hret.
    pose proof (Forall_lookup_1 _ _ _ _ Hrs Ha) as Hra.
    destruct Hra as [|old_value _|[|]]; simpl in Hret; try congruence.
    + now exists a, (idle [] [true]).
    + destruct (Hbit (Hlost a _ Ha eq_refl)) as [[=]|Hw]. exact Hw.
Qed.

(** ** Threads that leave a bit alone *)

Lemma quiet_after_load (n j k : Z) (from_lock : bool) (w : Z)
  (rest : list call) (results : list bool) :
  0 <= k < n -> k <> j -> Forall (other n j) rest ->
  quiet n j (after_load k from_lock w rest results).
Proof.
  intros Hk Hne Hrest.
  destruct (after_load_cases k from_lock w rest results) as [[_ ->]|[_ ->]].
  - now split.
  - destruct from_lock; (split; [|exact I]); simpl; [|exact Hrest].
    apply Forall_cons. now split.
Qed.

Lemma quiet_step (n j : Z) (spurious : bool) (t : thread)
  (this : AtomicBitVector) :
  0 <= j -> size_ this = n -> wf this -> quiet n j t ->
  exists t' this',
    thread_step spurious t this = Ok (t', this') /\
    size_ this' = n /\ wf this' /\ quiet n j t' /\
    at_ this' j = at_ this j.
Proof.
  intros Hj Hsize Hwf [Htodo Hdoing]. subst n.
  assert (Hword : forall k, 0 <= k < size_ this ->
            exists w, data_array_ this !! Z.to_nat (k / kBitsPerWord) = Some w).
  { intros k Hk. now apply owning_word. }
  destruct t as [[[[k from_lock] old_value]|] rest results]; simpl in *.
  - destruct Hdoing as [Hk Hne]. destruct (Hword k Hk) as [w Hw].
    destruct (exchange_step spurious
      {| doing := Some (k, from_lock, old_value); todo := rest;
         returned := results |} this k from_lock old_value w eq_refl Hw)
      as [(_ & _ & ->)|(_ & ->)]; simpl.
    + eexists _, _. split; [reflexivity|]. split; [reflexivity|].
      split; [now apply wf_same_shape|]. split; [now split|].
      apply set_bit_frame; (assumption || lia).
    + eexists _, _. split; [reflexivity|]. repeat split; try assumption.
      all: now apply quiet_after_load.
  - destruct rest as [|c rest].
    + exists (idle [] results), this. now repeat split.
    + apply Forall_cons in Htodo as [[Hk Hne] Hrest].
      destruct c as [k|k|k|k|k]; simpl in Hk, Hne;
        destruct (Hword k Hk) as [w Hw]; unfold thread_step; simpl.
      * rewrite (set_word _ _ _ Hw). simpl. eexists _, _.
        split; [reflexivity|]. split; [reflexivity|].
        split; [now apply wf_same_shape|]. split; [now split|].
        apply set_bit_frame; (assumption || lia).
      * rewrite (unset_word _ _ _ Hw). simpl. eexists _, _.
        split; [reflexivity|]. split; [reflexivity|].
        split; [now apply wf_same_shape|]. split; [now split|].
        apply clear_bit_frame; (assumption || lia).
      * rewrite (word_at_Some _ _ _ Hw). simpl. eexists _, _.
        split; [reflexivity|]. repeat split; try assumption.
        all: now apply quiet_after_load.
      * rewrite (word_at_Some _ _ _ Hw). simpl. eexists _, _.
        split; [reflexivity|]. repeat split; try assumption.
        all: now apply quiet_after_load.
      * unfold unlock. rewrite (unset_word _ _ _ Hw). simpl. eexists _, _.
        split; [reflexivity|]. split; [reflexivity|].
        split; [now apply wf_same_shape|]. split; [now split|].
        apply clear_bit_frame; (assumption || lia).
Qed.

(** X17. Threads whose calls are all on in-range bits other than [j]: in
    whatever order their atomic accesses are made, also to the word of bit
    [j], no access leaves the storage and [at(j)] returns afterwards what it
    returned before. *)
Theorem bit_untouched (sched : list (nat * bool)) (ts : list thread)
  (this : AtomicBitVector) (j : Z) :
  wf this -> 0 <= j -> Forall (quiet (size this) j) ts ->
  exists ts' this',
    run sched ts this = Ok (ts', this') /\
    size this' = size this /\ at_ this' j = at_ this j.
Proof.
  intros Hwf Hj. unfold size.
  remember (size_ this) as n eqn:Hsize. symmetry in Hsize.
  revert ts this Hwf Hsize.
  induction sched as [|[a spurious] sched IH]; intros ts this Hwf Hsize Hts.
  - now exists ts, this.
  - simpl. destruct (ts !! a) as [t|] eqn:Ht; [|now apply IH].
    pose proof (Forall_lookup_1 _ _ _ _ Hts Ht) as Hq.
    destruct (quiet_step n j spurious t this Hj Hsize Hwf Hq)
      as (t' & this' & -> & Hsize' & Hwf' & Hq' & Hat).
    destruct (IH (<[a := t']> ts) this' Hwf' Hsize')
      as (ts'' & this'' & Hrun & Hsize'' & Hat'');
      [now apply Forall_insert|].
    exists ts'', this''. split; [exact Hrun|]. split; congruence.
Qed.

(** ** A thread on its own *)

Lemma run_returned (sched : list (nat * bool)) (results : list bool)
  (this : AtomicBitVector) :
  run sched [idle [] results] this = Ok ([idle [] results], this).
Proof.
  induction sched as [|[[|a] spurious] sched IH]; simpl; auto.
Qed.

Lemma run_loop_alone (cas : list bool) (this : AtomicBitVector)
  (i w w' : Z) (r : bool) :
  data_array_ this !! Z.to_nat (i / kBitsPerWord) = Some w ->
  Z.testbit w (i mod kBitsPerWord) = false ->
  try_lock_loop cas w w i = Ok (r, w') ->
  run (map (pair 0%nat) cas)
      [{| doing := Some (i, false, w); todo := []; returned := [] |}] this
  = Ok ([idle [] [r]],
        {| size_ := size_ this;
           data_array_ :=
             <[Z.to_nat (i / kBitsPerWord) := w']> (data_array_ this) |}).
Proof.
  intros Hw Hb. induction cas as [|spurious cas IH]; simpl;
    rewrite test_shift, Hb by apply offset_range; simpl; [discriminate|].
  destruct (exchange_step spurious
    {| doing := Some (i, false, w); todo := []; returned := [] |}
    this i false w w eq_refl Hw) as [(-> & _ & ->)|([->|Hne] & ->)];
    try congruence.
  - unfold compare_exchange_weak. simpl. rewrite Z.eqb_refl.
    intros [= <- <-]. apply run_returned.
  - unfold compare_exchange_weak. simpl. intros Hloop.
    destruct (after_load_cases i false w [] []) as [[_ ->]|[Hb' _]];
      [now apply IH | congruence].
Qed.

(** X18. A thread that calls [try_lock(i)] with no other thread around
    ends with the result and the vector that the function [try_lock] gives:
    one step for the [load], one for each exchange. *)
Theorem try_lock_alone (spurious : bool) (cas : list bool)
  (this this' : AtomicBitVector) (i : Z) (r : bool) :
  try_lock cas this i = Ok (r, this') ->
  run ((0%nat, spurious) :: map (pair 0%nat) cas)
      [idle [call_try_lock i] []] this
  = Ok ([idle [] [r]], this').
Proof.
  intros Htry.
  destruct (try_lock_inv cas this this' i r Htry) as (w & w' & Hw & Hloop & ->).
  simpl. unfold thread_step. simpl. rewrite (word_at_Some _ _ _ Hw). simpl.
  unfold load.
  destruct (after_load_cases i false w [] []) as [[Hb ->]|[Hb ->]].
  - now apply run_loop_alone.
  - rewrite try_lock_loop_held in Hloop by exact Hb.
    injection Hloop as <- <-. rewrite (same_vector _ _ _ Hw).
    apply run_returned.
Qed.

End AtomicBitVector.

(** ** The instance of the header: [kmlib::AtomicBitVector<uint64_t>] *)

(** C4. [AtomicBitVector(size)] is to allocate ceil(size / kBitsPerWord)
    words, every in-range bit reading false.  For [size = SIZE_MAX] the sum
    [size + kBitsPerWord - 1] wraps around to 62: the vector has size
    [SIZE_MAX] and no word, where the ceiling is 2^58, and [at(0)] leaves
    the storage. *)
Theorem AtomicBitVector_size_wraps :
  size (AtomicBitVector_size uint64_t SIZE_MAX) = SIZE_MAX /\
  data_array_ (AtomicBitVector_size uint64_t SIZE_MAX) = [] /\
  ceil_div SIZE_MAX (kBitsPerWord uint64_t) = 2 ^ 58 /\
  at_ uint64_t (AtomicBitVector_size uint64_t SIZE_MAX) 0 = OutOfBounds.
Proof. vm_compute. repeat split. Qed.

(** C7. [reset(size)] is to leave a vector of that size with every in-range
    bit false.  [reset(SIZE_MAX)] leaves size [SIZE_MAX] and no word, so that
    [at(0)] leaves the storage: the word count wraps around as in the
    constructor. *)
Theorem reset_wraps :
  size (reset uint64_t (AtomicBitVector_size uint64_t 130) SIZE_MAX) = SIZE_MAX /\
  data_array_ (reset uint64_t (AtomicBitVector_size uint64_t 130) SIZE_MAX) = [] /\
  at_ uint64_t (reset uint64_t (AtomicBitVector_size uint64_t 130) SIZE_MAX) 0
  = OutOfBounds.
Proof. vm_compute. repeat split. Qed.

(** C3. A move is to leave its source empty, with size 0.  Moving a vector
    of 130 bits, by the constructor or by the assignment, leaves a source
    that still reports size 130 and has no word, so that its [at(0)] leaves
    the storage. *)
Theorem move_source_keeps_size :
  size (snd (AtomicBitVector_move (AtomicBitVector_size uint64_t 130))) = 130 /\
  data_array_ (snd (AtomicBitVector_move (AtomicBitVector_size uint64_t 130))) = [] /\
  size (snd (move_assign (AtomicBitVector_size uint64_t 0)
                         (AtomicBitVector_size uint64_t 130))) = 130 /\
  at_ uint64_t (snd (AtomicBitVector_move (AtomicBitVector_size uint64_t 130))) 0
  = OutOfBounds.
Proof. vm_compute. repeat split. Qed.

(** The scenario of 130 bits in three words: after setting bits 0, 63, 64
    and 129, [at] is true at these four indices and nowhere else; after
    [reset(10)] the size is 10 and every bit is false. *)
Lemma at_checked (T : WordType) (this : AtomicBitVector) (n : Z) (f : Z -> bool) :
  forallb (fun i => match at_ T this i with
                    | Ok b => Bool.eqb b (f i)
                    | _ => false
                    end) (seqZ 0 n) = true ->
  forall i, 0 <= i < n -> at_ T this i = Ok (f i).
Proof.
  intros Hall i Hi. rewrite forallb_forall in Hall.
  specialize (Hall i). rewrite <- list_elem_of_In, elem_of_seqZ in Hall.
  specialize (Hall ltac:(lia)).
  destruct (at_ T this i) as [b| |]; try discriminate.
  now apply Bool.eqb_prop in Hall as ->.
Qed.

Lemma scenario_130 :
  exists this,
    (v1 ← set uint64_t (AtomicBitVector_size uint64_t 130) 0;
     v2 ← set uint64_t v1 63;
     v3 ← set uint64_t v2 64;
     set uint64_t v3 129) = Ok this /\
    size this = 130 /\
    data_array_ this = [2 ^ 63 + 1; 1; 2] /\
    (forall i, 0 <= i < 130 ->
       at_ uint64_t this i
       = Ok ((i =? 0) || (i =? 63) || (i =? 64) || (i =? 129))) /\
    size (reset uint64_t this 10) = 10 /\
    (forall i, 0 <= i < 10 -> at_ uint64_t (reset uint64_t this 10) i = Ok false).
Proof.
  eexists. split; [vm_compute; reflexivity|].
  split; [reflexivity|]. split; [reflexivity|]. split; [|split].
  - apply at_checked. vm_compute. reflexivity.
  - reflexivity.
  - apply reset_spec. vm_compute. split; discriminate.
Qed.

(** ** The theorems at a vector of 130 bits with bits 0 and 129 set *)

Lemma try_lock_spec_witness :
  let this := {| size_ := 130; data_array_ := [1; 0; 2] |} in
  (wf uint64_t this /\ 0 <= 64 < size this /\ In false [true; false]) /\
  exists (b r : bool) (this' : AtomicBitVector),
    at_ uint64_t this 64 = Ok b /\
    try_lock uint64_t [true; false] this 64 = Ok (r, this') /\
    (r = true <-> b = false) /\
    (r = true -> at_ uint64_t this' 64 = Ok true) /\
    (b = true -> r = false).
Proof.
  intros this.
  assert (Hwf : wf uint64_t this) by reflexivity.
  assert (Hi : 0 <= 64 < size this) by (unfold size; simpl; lia).
  assert (Hcas : In false [true; false]) by (simpl; auto).
  split; [auto|].
  exact (try_lock_spec uint64_t [true; false] this 64 Hwf Hi Hcas).
Defined.

Lemma bit_independence_witness :
  let this := {| size_ := 130; data_array_ := [1; 0; 2] |} in
  (wf uint64_t this /\ 0 <= 128 < size this /\ 0 <= 129 < size this /\
   129 <> 128 /\ In false [false]) /\
  exists b : bool,
    at_ uint64_t this 129 = Ok b /\
    (exists this', set uint64_t this 128 = Ok this' /\
                   at_ uint64_t this' 129 = Ok b) /\
    (exists this', unset uint64_t this 128 = Ok this' /\
                   at_ uint64_t this' 129 = Ok b) /\
    (exists r this', try_lock uint64_t [false] this 128 = Ok (r, this') /\
                     at_ uint64_t this' 129 = Ok b).
Proof.
  intros this.
  assert (Hwf : wf uint64_t this) by reflexivity.
  assert (Hi : 0 <= 128 < size this) by (unfold size; simpl; lia).
  assert (Hj : 0 <= 129 < size this) by (unfold size; simpl; lia).
  assert (Hne : 129 <> 128) by lia.
  assert (Hcas : In false [false]) by (simpl; auto).
  split; [auto 6|].
  exact (bit_independence uint64_t [false] this 128 129 Hwf Hi Hj Hne Hcas).
Defined.

Lemma set_unset_at_witness :
  let this := {| size_ := 130; data_array_ := [1; 0; 2] |} in
  (wf uint64_t this /\ 0 <= 63 < size this) /\
  (exists this1 this2,
     set uint64_t this 63 = Ok this1 /\ at_ uint64_t this1 63 = Ok true /\
     unset uint64_t this1 63 = Ok this2 /\ at_ uint64_t this2 63 = Ok false) /\
  (forall (that : AtomicBitVector) (k : Z),
     unlock uint64_t that k = unset uint64_t that k).
Proof.
  intros this.
  assert (Hwf : wf uint64_t this) by reflexivity.
  assert (Hi : 0 <= 63 < size this) by (unfold size; simpl; lia).
  split; [auto|].
  exact (set_unset_at uint64_t this 63 Hwf Hi).
Defined.

Lemma set_unset_idempotent_witness :
  let this := {| size_ := 130; data_array_ := [1; 0; 2] |} in
  (wf uint64_t this /\ 0 <= 129 < size this) /\
  (exists this1 this2,
     set uint64_t this 129 = Ok this1 /\ set uint64_t this1 129 = Ok this2 /\
     size this2 = size this1 /\
     forall j, at_ uint64_t this2 j = at_ uint64_t this1 j) /\
  (exists this1 this2,
     unset uint64_t this 129 = Ok this1 /\ unset uint64_t this1 129 = Ok this2 /\
     size this2 = size this1 /\
     forall j, at_ uint64_t this2 j = at_ uint64_t this1 j).
Proof.
  intros this.
  assert (Hwf : wf uint64_t this) by reflexivity.
  assert (Hi : 0 <= 129 < size this) by (unfold size; simpl; lia).
  split; [auto|].
  exact (set_unset_idempotent uint64_t this 129 Hwf Hi).
Defined.

Lemma word_access_in_bounds_witness :
  let this := {| size_ := 130; data_array_ := [1; 0; 2] |} in
  (wf uint64_t this /\ 0 <= 129 < size this) /\
  0 <= 129 / kBitsPerWord uint64_t < Z.of_nat (length (data_array_ this)) /\
  (exists b, at_ uint64_t this 129 = Ok b) /\
  (exists this', set uint64_t this 129 = Ok this') /\
  (exists this', unset uint64_t this 129 = Ok this') /\
  (forall cas, try_lock uint64_t cas this 129 <> OutOfBounds).
Proof.
  intros this.
  assert (Hwf : wf uint64_t this) by reflexivity.
  assert (Hi : 0 <= 129 < size this) by (unfold size; simpl; lia).
  split; [auto|].
  exact (word_access_in_bounds uint64_t this 129 Hwf Hi).
Defined.

Lemma AtomicBitVector_words_spec_witness :
  Z.of_nat (length [5; 0; 2 ^ 63]) * kBitsPerWord uint64_t <= PTRDIFF_MAX /\
  size (AtomicBitVector_words uint64_t [5; 0; 2 ^ 63])
  = Z.of_nat (length [5; 0; 2 ^ 63]) * kBitsPerWord uint64_t /\
  forall i, 0 <= i < Z.of_nat (length [5; 0; 2 ^ 63]) * kBitsPerWord uint64_t ->
    exists w, [5; 0; 2 ^ 63] !! Z.to_nat (i / kBitsPerWord uint64_t) = Some w /\
              at_ uint64_t (AtomicBitVector_words uint64_t [5; 0; 2 ^ 63]) i
              = Ok (Z.testbit w (i mod kBitsPerWord uint64_t)).
Proof.
  assert (Hrep : Z.of_nat (length [5; 0; 2 ^ 63]) * kBitsPerWord uint64_t
                 <= PTRDIFF_MAX) by (vm_compute; discriminate).
  split; [exact Hrep|].
  exact (AtomicBitVector_words_spec uint64_t [5; 0; 2 ^ 63] Hrep).
Defined.

(** ** The further theorems at the same vector *)

Lemma try_lock_cases_witness :
  let this := {| size_ := 130; data_array_ := [1; 0; 2] |} in
  (wf uint64_t this /\ 0 <= 64 < size this) /\
  (at_ uint64_t this 64 = Ok true ->
   forall cas, try_lock uint64_t cas this 64 = Ok (false, this)) /\
  (at_ uint64_t this 64 = Ok false ->
   forall cas, In false cas ->
     exists this', set uint64_t this 64 = Ok this' /\
                   try_lock uint64_t cas this 64 = Ok (true, this')) /\
  (at_ uint64_t this 64 = Ok false ->
   forall cas, ~ In false cas -> try_lock uint64_t cas this 64 = Spinning).
Proof.
  intros this.
  assert (Hwf : wf uint64_t this) by reflexivity.
  assert (Hi : 0 <= 64 < size this) by (unfold size; simpl; lia).
  split; [auto|].
  exact (try_lock_cases uint64_t this 64 Hwf Hi).
Defined.

Lemma try_lock_twice_witness :
  let this := {| size_ := 130; data_array_ := [1; 0; 2] |} in
  (wf uint64_t this /\ 0 <= 64 < size this /\
   at_ uint64_t this 64 = Ok false /\ In false [true; false]) /\
  exists this1,
    try_lock uint64_t [true; false] this 64 = Ok (true, this1) /\
    forall cas2, try_lock uint64_t cas2 this1 64 = Ok (false, this1).
Proof.
  intros this.
  assert (Hwf : wf uint64_t this) by reflexivity.
  assert (Hi : 0 <= 64 < size this) by (unfold size; simpl; lia).
  assert (Hb : at_ uint64_t this 64 = Ok false) by reflexivity.
  assert (Hcas : In false [true; false]) by (simpl; auto).
  split; [auto|].
  exact (try_lock_twice uint64_t [true; false] this 64 Hwf Hi Hb Hcas).
Defined.

Lemma lock_acquires_witness :
  let this := {| size_ := 130; data_array_ := [1; 0; 2] |} in
  (wf uint64_t this /\ 0 <= 64 < size this /\
   at_ uint64_t this 64 = Ok false /\ In false [true; false]) /\
  exists this',
    lock uint64_t [[true; false]] this 64 = Ok this' /\
    set uint64_t this 64 = Ok this' /\ at_ uint64_t this' 64 = Ok true.
Proof.
  intros this.
  assert (Hwf : wf uint64_t this) by reflexivity.
  assert (Hi : 0 <= 64 < size this) by (unfold size; simpl; lia).
  assert (Hb : at_ uint64_t this 64 = Ok false) by reflexivity.
  assert (Hcas : In false [true; false]) by (simpl; auto).
  split; [auto|].
  exact (lock_acquires uint64_t [true; false] [] this 64 Hwf Hi Hb Hcas).
Defined.

Lemma lock_held_spins_witness :
  let this := {| size_ := 130; data_array_ := [1; 0; 2] |} in
  (wf uint64_t this /\ 0 <= 129 < size this /\
   at_ uint64_t this 129 = Ok true) /\
  lock uint64_t [[false]; [false]; [false]] this 129 = Spinning.
Proof.
  intros this.
  assert (Hwf : wf uint64_t this) by reflexivity.
  assert (Hi : 0 <= 129 < size this) by (unfold size; simpl; lia).
  assert (Hb : at_ uint64_t this 129 = Ok true) by reflexivity.
  split; [auto|].
  exact (lock_held_spins uint64_t [[false]; [false]; [false]] this 129 Hwf Hi Hb).
Defined.

Lemma lock_unlock_round_trip_witness :
  let this := AtomicBitVector_words uint64_t [1; 0; 2] in
  (built uint64_t this /\ 0 <= 64 < size this /\
   at_ uint64_t this 64 = Ok false /\ In false [false]) /\
  exists this1,
    lock uint64_t [[false]] this 64 = Ok this1 /\
    unlock uint64_t this1 64 = Ok this /\
    set uint64_t this 64 = Ok this1 /\ unset uint64_t this1 64 = Ok this.
Proof.
  intros this.
  assert (Hrep : Z.of_nat (length [1; 0; 2]) * kBitsPerWord uint64_t
                 <= PTRDIFF_MAX) by (vm_compute; discriminate).
  assert (Hbuilt : built uint64_t this) by exact (built_words uint64_t _ Hrep).
  assert (Hi : 0 <= 64 < size this) by (vm_compute; split; [discriminate | reflexivity]).
  assert (Hb : at_ uint64_t this 64 = Ok false) by reflexivity.
  assert (Hcas : In false [false]) by (simpl; auto).
  split; [auto|].
  exact (lock_unlock_round_trip uint64_t [false] [] this 64 Hbuilt Hi Hb Hcas).
Defined.

Lemma set_unset_nothing_to_do_witness :
  let this := AtomicBitVector_words uint64_t [1; 0; 2] in
  (built uint64_t this /\ 0 <= 0 < size this) /\
  (at_ uint64_t this 0 = Ok true -> set uint64_t this 0 = Ok this) /\
  (at_ uint64_t this 0 = Ok false -> unset uint64_t this 0 = Ok this).
Proof.
  intros this.
  assert (Hrep : Z.of_nat (length [1; 0; 2]) * kBitsPerWord uint64_t
                 <= PTRDIFF_MAX) by (vm_compute; discriminate).
  assert (Hbuilt : built uint64_t this) by exact (built_words uint64_t _ Hrep).
  assert (Hi : 0 <= 0 < size this) by (vm_compute; split; [discriminate | reflexivity]).
  split; [auto|].
  exact (set_unset_nothing_to_do uint64_t this 0 Hbuilt Hi).
Defined.

Lemma updates_commute_witness :
  let this := {| size_ := 130; data_array_ := [1; 0; 2] |} in
  (wf uint64_t this /\ 0 <= 128 < size this /\ 0 <= 129 < size this /\
   128 <> 129) /\
  (exists that, (a ← set uint64_t this 128; set uint64_t a 129) = Ok that /\
                (b ← set uint64_t this 129; set uint64_t b 128) = Ok that) /\
  (exists that, (a ← set uint64_t this 128; unset uint64_t a 129) = Ok that /\
                (b ← unset uint64_t this 129; set uint64_t b 128) = Ok that) /\
  (exists that, (a ← unset uint64_t this 128; unset uint64_t a 129) = Ok that /\
                (b ← unset uint64_t this 129; unset uint64_t b 128) = Ok that).
Proof.
  intros this.
  assert (Hwf : wf uint64_t this) by reflexivity.
  assert (Hi : 0 <= 128 < size this) by (unfold size; simpl; lia).
  assert (Hj : 0 <= 129 < size this) by (unfold size; simpl; lia).
  assert (Hne : 128 <> 129) by lia.
  split; [auto|].
  exact (updates_commute uint64_t this 128 129 Hwf Hi Hj Hne).
Defined.

Lemma beyond_size_within_storage_witness :
  let this := {| size_ := 130; data_array_ := [1; 0; 2] |} in
  (0 <= size this <= 150 /\
   150 < Z.of_nat (length (data_array_ this)) * kBitsPerWord uint64_t) /\
  exists this1 this2,
    set uint64_t this 150 = Ok this1 /\ size this1 = size this /\
    at_ uint64_t this1 150 = Ok true /\
    unset uint64_t this1 150 = Ok this2 /\ size this2 = size this /\
    at_ uint64_t this2 150 = Ok false.
Proof.
  intros this.
  assert (Hi : 0 <= size this <= 150) by (unfold size; simpl; lia).
  assert (Hb : 150 < Z.of_nat (length (data_array_ this)) * kBitsPerWord uint64_t)
    by reflexivity.
  split; [auto|].
  exact (beyond_size_within_storage uint64_t this 150 Hi Hb).
Defined.

Lemma beyond_storage_witness :
  let this := {| size_ := 130; data_array_ := [1; 0; 2] |} in
  (0 <= 192 /\
   Z.of_nat (length (data_array_ this)) * kBitsPerWord uint64_t <= 192) /\
  at_ uint64_t this 192 = OutOfBounds /\
  set uint64_t this 192 = OutOfBounds /\
  unset uint64_t this 192 = OutOfBounds /\
  unlock uint64_t this 192 = OutOfBounds /\
  (forall cas, try_lock uint64_t cas this 192 = OutOfBounds) /\
  (forall cas sched, lock uint64_t (cas :: sched) this 192 = OutOfBounds).
Proof.
  intros this.
  assert (Hi : 0 <= 192) by lia.
  assert (Hb : Z.of_nat (length (data_array_ this)) * kBitsPerWord uint64_t <= 192)
    by (vm_compute; discriminate).
  split; [auto|].
  exact (beyond_storage uint64_t this 192 Hi Hb).
Defined.

Lemma sizes_that_fit_witness :
  let this := {| size_ := 130; data_array_ := [1; 0; 2] |} in
  fits uint64_t 10 /\
  size (AtomicBitVector_size uint64_t 10) = 10 /\
  Z.of_nat (length (data_array_ (AtomicBitVector_size uint64_t 10)))
  = ceil_div 10 (kBitsPerWord uint64_t) /\
  (forall i, 0 <= i < 10 -> at_ uint64_t (AtomicBitVector_size uint64_t 10) i = Ok false) /\
  reset uint64_t this 10 = AtomicBitVector_size uint64_t 10.
Proof.
  intros this.
  assert (Hn : fits uint64_t 10) by (vm_compute; split; discriminate).
  split; [exact Hn|].
  exact (sizes_that_fit uint64_t this 10 Hn).
Defined.

Lemma sizes_that_wrap_witness :
  let this := {| size_ := 130; data_array_ := [1; 0; 2] |} in
  SIZE_MAX - (kBitsPerWord uint64_t - 1) < SIZE_MAX - 5 <= SIZE_MAX /\
  AtomicBitVector_size uint64_t (SIZE_MAX - 5)
  = {| size_ := SIZE_MAX - 5; data_array_ := [] |} /\
  reset uint64_t this (SIZE_MAX - 5)
  = {| size_ := SIZE_MAX - 5; data_array_ := [] |} /\
  forall i, at_ uint64_t (AtomicBitVector_size uint64_t (SIZE_MAX - 5)) i
            = OutOfBounds /\
            set uint64_t (AtomicBitVector_size uint64_t (SIZE_MAX - 5)) i
            = OutOfBounds.
Proof.
  intros this.
  assert (Hn : SIZE_MAX - (kBitsPerWord uint64_t - 1) < SIZE_MAX - 5 <= SIZE_MAX)
    by (vm_compute; split; [reflexivity | discriminate]).
  split; [exact Hn|].
  exact (sizes_that_wrap uint64_t this (SIZE_MAX - 5) Hn).
Defined.

Lemma AtomicBitVector_words_stored_witness :
  (Z.of_nat (length [1; 0; 2 ^ 64 - 1]) * kBitsPerWord uint64_t <= PTRDIFF_MAX /\
   Forall (is_word uint64_t) [1; 0; 2 ^ 64 - 1]) /\
  data_array_ (AtomicBitVector_words uint64_t [1; 0; 2 ^ 64 - 1])
  = [1; 0; 2 ^ 64 - 1] /\
  wf uint64_t (AtomicBitVector_words uint64_t [1; 0; 2 ^ 64 - 1]).
Proof.
  assert (Hrep : Z.of_nat (length [1; 0; 2 ^ 64 - 1]) * kBitsPerWord uint64_t
                 <= PTRDIFF_MAX) by (vm_compute; discriminate).
  assert (Hwords : Forall (is_word uint64_t) [1; 0; 2 ^ 64 - 1]).
  { repeat apply Forall_cons_2; try apply Forall_nil_2;
      vm_compute; split; (discriminate || reflexivity). }
  split; [auto|].
  exact (AtomicBitVector_words_stored uint64_t [1; 0; 2 ^ 64 - 1] Hrep Hwords).
Defined.


(** ** Two and three threads on that vector *)

Lemma mutual_exclusion_witness :
  let this := {| size_ := 130; data_array_ := [1; 0; 2] |} in
  let ts := [idle [call_lock 3; call_set 5; call_unlock 3] [];
             idle [call_lock 3; call_set 5; call_unlock 3] []] in
  let sched := [(0%nat, false); (1%nat, false); (0%nat, false);
                (1%nat, true); (1%nat, false); (0%nat, false)] in
  (wf uint64_t this /\ 0 <= 3 < size this /\
   Forall (locker uint64_t (size this) 3 false) ts) /\
  exists ts' this',
    run uint64_t sched ts this = Ok (ts', this') /\
    (forall a b ta tb,
       ts' !! a = Some ta -> ts' !! b = Some tb ->
       in_critical_section (size this) 3 ta ->
       in_critical_section (size this) 3 tb -> a = b) /\
    (forall a ta,
       ts' !! a = Some ta -> in_critical_section (size this) 3 ta ->
       at_ uint64_t this' 3 = Ok true).
Proof.
  intros this ts sched.
  assert (Hwf : wf uint64_t this) by reflexivity.
  assert (Hi : 0 <= 3 < size this) by (unfold size; simpl; lia).
  assert (Hl : locker uint64_t (size this) 3 false
                 (idle [call_lock 3; call_set 5; call_unlock 3] [])).
  { apply locker_idle, prog_lock, prog_other.
    - split; simpl; lia.
    - apply prog_unlock, prog_nil. }
  assert (Hts : Forall (locker uint64_t (size this) 3 false) ts)
    by (repeat apply Forall_cons_2; [exact Hl | exact Hl | apply Forall_nil_2]).
  split; [auto|].
  exact (mutual_exclusion uint64_t sched ts this 3 Hwf Hi Hts).
Defined.

Lemma try_lock_race_witness :
  let this := {| size_ := 130; data_array_ := [1; 0; 2] |} in
  let ts := [idle [call_try_lock 64] []; idle [call_try_lock 64] [];
             idle [call_try_lock 64] []] in
  let sched := [(1%nat, false); (2%nat, false); (2%nat, true);
                (1%nat, false); (0%nat, false); (2%nat, false)] in
  (wf uint64_t this /\ 0 <= 64 < size this /\
   at_ uint64_t this 64 = Ok false /\
   Forall (fun t => t = idle [call_try_lock 64] []) ts) /\
  exists ts' this',
    run uint64_t sched ts this = Ok (ts', this') /\
    (forall a b ta tb,
       ts' !! a = Some ta -> ts' !! b = Some tb ->
       returned ta = [true] -> returned tb = [true] -> a = b) /\
    (false = true ->
     forall a ta, ts' !! a = Some ta -> returned ta <> [true]) /\
    (false = false ->
     forall a ta, ts' !! a = Some ta -> returned ta <> [] ->
       exists b tb, ts' !! b = Some tb /\ returned tb = [true]).
Proof.
  intros this ts sched.
  assert (Hwf : wf uint64_t this) by reflexivity.
  assert (Hi : 0 <= 64 < size this) by (unfold size; simpl; lia).
  assert (Hb : at_ uint64_t this 64 = Ok false) by reflexivity.
  assert (Hts : Forall (fun t => t = idle [call_try_lock 64] []) ts)
    by (repeat apply Forall_cons_2; try reflexivity; apply Forall_nil_2).
  split; [auto|].
  exact (try_lock_race uint64_t sched ts this 64 false Hwf Hi Hb Hts).
Defined.

Lemma bit_untouched_witness :
  let this := {| size_ := 130; data_array_ := [1; 0; 2] |} in
  let ts := [idle [call_set 128; call_unset 128] [];
             idle [call_lock 3; call_unlock 3; call_try_lock 127] []] in
  let sched := [(0%nat, false); (1%nat, false); (1%nat, false);
                (0%nat, false); (1%nat, false); (1%nat, false)] in
  (wf uint64_t this /\ 0 <= 129 /\ Forall (quiet (size this) 129) ts) /\
  exists ts' this',
    run uint64_t sched ts this = Ok (ts', this') /\
    size this' = size this /\ at_ uint64_t this' 129 = at_ uint64_t this 129.
Proof.
  intros this ts sched.
  assert (Hwf : wf uint64_t this) by reflexivity.
  assert (Hj : 0 <= 129) by lia.
  assert (Hts : Forall (quiet (size this) 129) ts).
  { repeat apply Forall_cons_2; try apply Forall_nil_2;
      (split; [|exact I]); simpl;
      repeat apply Forall_cons_2; try apply Forall_nil_2;
      split; simpl; lia. }
  split; [auto|].
  exact (bit_untouched uint64_t sched ts this 129 Hwf Hj Hts).
Defined.

Lemma try_lock_alone_witness :
  let this := {| size_ := 130; data_array_ := [1; 0; 2] |} in
  let this' := {| size_ := 130; data_array_ := [1; 1; 2] |} in
  try_lock uint64_t [true; false] this 64 = Ok (true, this') /\
  run uint64_t ((0%nat, false) :: map (pair 0%nat) [true; false])
      [idle [call_try_lock 64] []] this
  = Ok ([idle [] [true]], this').
Proof.
  intros this this'.
  assert (Htry : try_lock uint64_t [true; false] this 64 = Ok (true, this'))
    by reflexivity.
  split; [exact Htry|].
  exact (try_lock_alone uint64_t false [true; false] this this' 64 true Htry).
Defined.

End kmlib.
